(** * Attacca demo (app.py): capture, transcription and emotion selection

    A shallow embedding of [src/app.py].  The speech recogniser, the emotion
    classifier, the clock, the microphone and the Streamlit front end are the
    program's collaborators; the code that drives them ([record_and_transcribe],
    the RECORD button handler, [EMOTION_TO_CHARACTER] and the [max] selection)
    is translated function by function. *)

From stdpp Require Import gmap strings list.
From Stdlib Require Import Ascii ZArith QArith Lia.

Open Scope string_scope.
Open Scope Z_scope.
Open Scope list_scope.

(** ** Python outcomes *)

(** The exceptions the modelled code can let escape. *)
Inductive Exn : Type :=
| PortAudioError            (* sd.RawInputStream could not open the device *)
| VoskError                 (* rec.AcceptWaveform: "Failed to process waveform" *)
| KeyError (key : string)   (* d[key] on a missing key *)
| IndexError                (* xs[0] on an empty list *)
| ValueError.               (* max() of an empty sequence *)

(** What running a piece of the program yields: a value, an escaping exception,
    or no exit at all ([q.get()] blocked for ever). *)
Inductive Res (A : Type) : Type :=
| Ok (a : A)
| Raise (e : Exn)
| Hang.
Arguments Ok {A} a.
Arguments Raise {A} e.
Arguments Hang {A}.

(** Python truthiness of a [str]. *)
Definition truthy (s : string) : bool :=
  match s with
  | EmptyString => false
  | String _ _ => true
  end.

(** [d.get(key, default)] and [d[key]] on a parsed JSON object whose fields are
    strings (the decoder's results expose [text] and [partial]). *)
Definition Json : Type := gmap string string.

Definition dict_get {V : Type} (d : gmap string V) (key : string) (dflt : V) : V :=
  match d !! key with
  | Some v => v
  | None => dflt
  end.

Definition dict_item {V : Type} (d : gmap string V) (key : string) : Res V :=
  match d !! key with
  | Some v => Ok v
  | None => Raise (KeyError key)
  end.

(** ** EMOTION_TO_CHARACTER *)

Record ActionRecord : Type := mkAction {
  name : string;
  emoji : string;
  color : string;
  darker : string;
  text : string;
  image : string
}.

Definition joy_record : ActionRecord :=
  mkAction "Joy" "💛" "#FEE033" "#998200" "#ffffff"
           "C:\\Users\\User\\Attacca_Final\\images\\joy.png".
Definition sadness_record : ActionRecord :=
  mkAction "Sadness" "💙" "#4A90E2" "#214a7a" "#ffffff"
           "C:\\Users\\User\\Attacca_Final\\images\\sadness.png".
Definition anger_record : ActionRecord :=
  mkAction "Anger" "🔴" "#E23E28" "#8b1a0d" "#ffffff"
           "C:\\Users\\User\\Attacca_Final\\images\\anger.png".
Definition fear_record : ActionRecord :=
  mkAction "Fear" "🟣" "#A386D5" "#5e438a" "#ffffff"
           "C:\\Users\\User\\Attacca_Final\\images\\fear.png".
Definition surprise_record : ActionRecord :=
  mkAction "Surprise" "🩷" "#FF4DD8" "#f71ccf" "#ffffff"
           "C:\\Users\\User\\Attacca_Final\\images\\surprise.png".
Definition disgust_record : ActionRecord :=
  mkAction "Disgust" "💚" "#76D672" "#3a6d38" "#ffffff"
           "C:\\Users\\User\\Attacca_Final\\images\\disgust.png".
Definition neutral_record : ActionRecord :=
  mkAction "Ennui" "⚪" "#808080" "#404040" "#ffffff"
           "C:\\Users\\User\\Attacca_Final\\images\\neutral.png".

Definition EMOTION_TO_CHARACTER : gmap string ActionRecord :=
  <["joy" := joy_record]>
  (<["sadness" := sadness_record]>
  (<["anger" := anger_record]>
  (<["fear" := fear_record]>
  (<["surprise" := surprise_record]>
  (<["disgust" := disgust_record]>
  (<["neutral" := neutral_record]> ∅)))))).

(** The closed label set of the classifier. *)
Definition EMOTION_LABELS : list string :=
  ["joy"; "sadness"; "anger"; "fear"; "surprise"; "disgust"; "neutral"].

(** [EMOTION_TO_CHARACTER.get(mood, EMOTION_TO_CHARACTER["neutral"])]: the
    default argument is evaluated first, by subscription. *)
Definition character_for (mood : string) : Res ActionRecord :=
  match dict_item EMOTION_TO_CHARACTER "neutral" with
  | Ok dflt => Ok (dict_get EMOTION_TO_CHARACTER mood dflt)
  | Raise e => Raise e
  | Hang => Hang
  end.

(** ** Selection of the best emotion *)

(** One entry of the classifier's output: [{'label': ..., 'score': ...}]. *)
Record EmotionScore : Type := mkScore {
  label : string;
  score : Q
}.

(** [a > b] on scores. *)
Definition score_gt (a b : Q) : bool := negb (Qle_bool a b).

(** Python's [max(iterable, key=...)]: the running maximum starts at the first
    item and is replaced only by an item whose key is strictly greater. *)
Definition max_step {A : Type} (key : A → Q) (best item : A) : A :=
  if score_gt (key item) (key best) then item else best.

Definition py_max {A : Type} (key : A → Q) (items : list A) : Res A :=
  match items with
  | [] => Raise ValueError
  | first :: others => Ok (fold_left (max_step key) others first)
  end.

(** [round(x)] of Python 3 on a score: nearest integer, ties to the even one. *)
Definition py_round (x : Q) : Z :=
  let n := Qnum x in
  let d := Z.pos (Qden x) in
  let lo := n / d in
  match (2 * (n mod d)) ?= d with
  | Lt => lo
  | Gt => lo + 1
  | Eq => if Z.even lo then lo else lo + 1
  end.

(** ** The world the session runs in *)

Definition SAMPLE_RATE : Z := 16000.
Definition BLOCKSIZE : Z := 4000.

(** One captured block, as [bytes(indata)]. *)
Definition Chunk : Type := list Byte.byte.

(** Wall-clock time is counted in ticks of a millisecond; [time.time()] reads
    the clock in seconds, so [duration_sec] seconds are that many thousand
    ticks. *)
Definition TICKS_PER_SECOND : Z := 1000.

Inductive MicState : Type := MicFree | MicHeld.

(** The calls the program makes on its collaborators, in the order made. *)
Inductive Event : Type :=
| EvPlaceholder                                  (* st.empty() *)
| EvOpenFailed                                   (* sd.RawInputStream raised *)
| EvMicOpen                                      (* ... __enter__ *)
| EvMicClose                                     (* ... __exit__ *)
| EvClock                                        (* time.time() *)
| EvGet                                          (* q.get() called *)
| EvGot (data : Chunk)                           (* q.get() returned *)
| EvAccept (data : Chunk) (reply : Exn + bool)   (* rec.AcceptWaveform(data) *)
| EvResult                                       (* rec.Result() *)
| EvPartialResult                                (* rec.PartialResult() *)
| EvFinalResult                                  (* rec.FinalResult() *)
| EvStatus (partial : string)                    (* status_placeholder.markdown *)
| EvStatusClear                                  (* status_placeholder.empty() *)
| EvClassify (transcript : string)               (* emotion_clf(transcript) *)
| EvTheme (char : ActionRecord)                  (* background and text colours *)
| EvQuote (transcript : string)                  (* the transcript, quoted *)
| EvImage (src : string)                         (* the character image *)
| EvCoreMemory (char : ActionRecord) (confidence : Z)
| EvDivider                                      (* st.divider() *)
| EvSpotifyLink (genre mood : string) (char : ActionRecord)
| EvYouTubeLink (query : string) (char : ActionRecord)
| EvFooter.

(** [capture] is what the device layer will hand to the stream's callback once
    the stream is open: each block with the tick at which the callback puts it
    on the queue.  [trace] stamps every call with the tick it was made at. *)
Record World : Type := mkWorld {
  now : Z;
  mic : MicState;
  device_ok : bool;
  capture : list (Z * Chunk);
  trace : list (Z * Event)
}.

Definition set_now (t : Z) (w : World) : World :=
  mkWorld t (mic w) (device_ok w) (capture w) (trace w).
Definition set_mic (m : MicState) (w : World) : World :=
  mkWorld (now w) m (device_ok w) (capture w) (trace w).
Definition record_event (e : Event) (w : World) : World :=
  mkWorld (now w) (mic w) (device_ok w) (capture w) (trace w ++ [(now w, e)]).

(** ** A state and exception monad over the world *)

Definition M (A : Type) : Type := World → Res A * World.

Definition ret {A : Type} (a : A) : M A := fun w => (Ok a, w).

Definition bind {A B : Type} (m : M A) (k : A → M B) : M B :=
  fun w =>
    match m w with
    | (Ok a, w') => k a w'
    | (Raise e, w') => (Raise e, w')
    | (Hang, w') => (Hang, w')
    end.

Definition raise {A : Type} (e : Exn) : M A := fun w => (Raise e, w).
Definition hang {A : Type} : M A := fun w => (Hang, w).

Definition lift {A : Type} (r : Res A) : M A := fun w => (r, w).

#[global] Instance M_ret : MRet M := @ret.
#[global] Instance M_bind : MBind M := fun A B k m => bind m k.

Definition emit (e : Event) : M unit := fun w => (Ok tt, record_event e w).

(** [time.time()]. *)
Definition time_time : M Z := fun w => (Ok (now w), record_event EvClock w).

(** Time passing while [q.get()] blocks. *)
Definition wait_until (t : Z) : M unit := fun w => (Ok tt, set_now (Z.max (now w) t) w).

(** [with sd.RawInputStream(..., callback=callback): body].  The body receives
    the queue as the callback will fill it; the stream is stopped and closed on
    the way out, whether the body returns or raises.  A body that never exits
    leaves the stream open. *)
Definition with_RawInputStream {A : Type} (body : list (Z * Chunk) → M A) : M A :=
  fun w =>
    if device_ok w then
      match body (capture w) (record_event EvMicOpen (set_mic MicHeld w)) with
      | (Hang, w') => (Hang, w')
      | (r, w') => (r, record_event EvMicClose (set_mic MicFree w'))
      end
    else (Raise PortAudioError, record_event EvOpenFailed w).

(** ** The recogniser *)

(** [vosk.KaldiRecognizer] as a black box with a state of its own.
    [AcceptWaveform] answers with an exception or a flag, the next state, and
    the ticks the call took. *)
Class Recognizer (R : Type) : Type := {
  KaldiRecognizer : R;
  AcceptWaveform : R → Chunk → (Exn + bool) * R * N;
  Result : R → Json * R;
  PartialResult : R → Json * R;
  FinalResult : R → Json * R
}.

Section Session.

Context {R : Type} `{Recognizer R}.

Definition accept_waveform (rec : R) (data : Chunk) : M (bool * R) :=
  fun w =>
    let '(reply, rec', took) := AcceptWaveform rec data in
    let w' := set_now (now w + Z.of_N took) (record_event (EvAccept data reply) w) in
    match reply with
    | inl e => (Raise e, w')
    | inr flag => (Ok (flag, rec'), w')
    end.

(** The body of the [while] loop after [data = q.get()].  The two
    subscriptions [res['text']] read the same field of the same object. *)
Definition feed_chunk (data : Chunk) (rec : R) (transcript_parts : list string)
  : M (R * list string) :=
  '(accepted, rec) ← accept_waveform rec data;
  if (accepted : bool) then
    let '(res, rec) := Result rec in
    emit EvResult;;
    segment ← lift (dict_item res "text");
    if truthy segment
    then mret (rec, transcript_parts ++ [segment])
    else mret (rec, transcript_parts)
  else
    let '(res, rec) := PartialResult rec in
    emit EvPartialResult;;
    let partial := dict_get res "partial" "" in
    if truthy partial
    then emit (EvStatus partial);; mret (rec, transcript_parts)
    else mret (rec, transcript_parts).

(** [while time.time() < end_time: data = q.get(); ...].  The queue is the list
    of blocks still to come; [q.get()] returns the next one when it is there
    and blocks for ever when none will come. *)
Fixpoint record_loop (end_time : Z) (q : list (Z * Chunk)) (rec : R)
    (transcript_parts : list string) {struct q} : M (R * list string) :=
  t ← time_time;
  if t <? end_time then
    emit EvGet;;
    match q with
    | [] => hang
    | (arrival, data) :: q' =>
        wait_until arrival;;
        emit (EvGot data);;
        '(rec, transcript_parts) ← feed_chunk data rec transcript_parts;
        record_loop end_time q' rec transcript_parts
    end
  else mret (rec, transcript_parts).

Definition record_and_transcribe (duration_sec : Z) : M string :=
  let rec := KaldiRecognizer in
  let transcript_parts := [] in
  emit EvPlaceholder;;
  '(rec, transcript_parts) ←
    with_RawInputStream (fun q =>
      t ← time_time;
      let end_time := t + duration_sec * TICKS_PER_SECOND in
      record_loop end_time q rec transcript_parts);
  let '(res, rec) := FinalResult rec in
  emit EvFinalResult;;
  let final := dict_get res "text" "" in
  let transcript_parts :=
    if truthy final then transcript_parts ++ [final] else transcript_parts in
  emit EvStatusClear;;
  mret (String.concat " " transcript_parts).

End Session.

(** ** The RECORD button handler *)

Section App.

Context {R : Type} `{Recognizer R}.

(** The text-classification pipeline ([top_k=None]: every label with its score,
    one list per input) and the image loader, both outside the program. *)
Variable emotion_clf : string → list (list EmotionScore).
Variable get_local_img : string → option string.

(** [emotion_clf(transcript)[0]]. *)
Definition classify (transcript : string) : M (list EmotionScore) :=
  emit (EvClassify transcript);;
  match emotion_clf transcript with
  | [] => raise IndexError
  | scores :: _ => mret scores
  end.

(** The body of [if st.button("RECORD"):].  The events carry the values the
    markup interpolates; the YouTube query is the text handed to
    [urllib.parse.quote]. *)
Definition on_record (platform genre : string) (duration : Z) : M unit :=
  transcript ← record_and_transcribe duration;
  if truthy transcript then
    scores ← classify transcript;
    best_emo ← lift (py_max score scores);
    let mood := label best_emo in
    char ← lift (character_for mood);
    let img_src := get_local_img (image char) in
    emit (EvTheme char);;
    emit (EvQuote transcript);;
    match img_src with
    | Some src => if truthy src then emit (EvImage src) else mret tt
    | None => mret tt
    end;;
    let confidence := py_round (score best_emo * 100)%Q in
    emit (EvCoreMemory char confidence);;
    emit EvDivider;;
    if String.eqb platform "Spotify"
    then emit (EvSpotifyLink genre mood char)
    else emit (EvYouTubeLink (genre +:+ " " +:+ mood +:+ " music video") char)
  else mret tt.

(** One run of the script from the button on. *)
Definition app (button : bool) (platform genre : string) (duration : Z) : M unit :=
  (if button then on_record platform genre duration else mret tt);;
  emit EvFooter.

End App.

(** ** Recognition events, as the specification names them *)

Inductive RecognitionEvent : Type :=
| Partial (hypothesis : string)
| Committed (segment : string)
| Empty.

Section Events.

Context {R : Type} `{Recognizer R}.

(** The adapter [feed(chunk) -> RecognitionEvent]: a chunk the decoder accepts
    as the end of an utterance commits the [text] of its result; any other
    chunk gives the current partial hypothesis, or nothing when there is
    none. *)
Definition spec_feed (rec : R) (data : Chunk) : Res RecognitionEvent * R :=
  match AcceptWaveform rec data with
  | (inl e, rec', _) => (Raise e, rec')
  | (inr true, rec', _) =>
      let '(res, rec'') := Result rec' in
      match dict_item res "text" with
      | Ok segment => (Ok (Committed segment), rec'')
      | Raise e => (Raise e, rec'')
      | Hang => (Hang, rec'')
      end
  | (inr false, rec', _) =>
      let '(res, rec'') := PartialResult rec' in
      let partial := dict_get res "partial" "" in
      (Ok (if truthy partial then Partial partial else Empty), rec'')
  end.

(** The events of a sequence of chunks fed in order, and the decoder after the
    last of them. *)
Fixpoint spec_feed_all (rec : R) (chunks : list Chunk)
  : Res (list RecognitionEvent) * R :=
  match chunks with
  | [] => (Ok [], rec)
  | data :: rest =>
      match spec_feed rec data with
      | (Ok ev, rec') =>
          match spec_feed_all rec' rest with
          | (Ok evs, rec'') => (Ok (ev :: evs), rec'')
          | other => other
          end
      | (Raise e, rec') => (Raise e, rec')
      | (Hang, rec') => (Hang, rec')
      end
  end.

(** [finalize()]: the closing segment, empty when the decoder has none. *)
Definition spec_finalize (rec : R) : string :=
  dict_get (fst (FinalResult rec)) "text" "".

End Events.

Definition committed_text (ev : RecognitionEvent) : option string :=
  match ev with
  | Committed segment => Some segment
  | _ => None
  end.

(** The segments of a session: the committed texts in feed order, then the
    closing one, those that are empty left out. *)
Definition segments (evs : list RecognitionEvent) (closing : string) : list string :=
  List.filter truthy (omap committed_text evs ++ [closing]).

Definition is_committed (ev : RecognitionEvent) : bool :=
  match ev with
  | Committed _ => true
  | _ => false
  end.

(** ** Reading a trace *)

Definition accepted_chunk (te : Z * Event) : option Chunk :=
  match snd te with
  | EvAccept data _ => Some data
  | _ => None
  end.

(** The chunks handed to [AcceptWaveform], in order. *)
Definition fed_chunks (tr : list (Z * Event)) : list Chunk := omap accepted_chunk tr.

Definition is_dequeue_or_feed (e : Event) : bool :=
  match e with
  | EvGet | EvGot _ | EvAccept _ _ => true
  | _ => false
  end.

Definition is_downstream (e : Event) : bool :=
  match e with
  | EvClassify _ | EvTheme _ | EvQuote _ | EvImage _ | EvCoreMemory _ _
  | EvDivider | EvSpotifyLink _ _ _ | EvYouTubeLink _ _ => true
  | _ => false
  end.

Definition events (tr : list (Z * Event)) : list Event := map snd tr.

(** ** A scripted recogniser *)

(** A decoder that answers the n-th chunk as its script says: it commits a
    segment, offers a partial hypothesis, or fails; each answer takes the given
    number of ticks.  Chunks past the script's end bring nothing. *)
Inductive Cue : Type :=
| Commit (segment : string)
| Guess (partial : string)
| Crash.

Record Scripted : Type := mkScripted {
  cues : list (Cue * N);
  answer : Json;
  closing_text : string
}.

Definition scripted_accept (s : Scripted) (data : Chunk) : (Exn + bool) * Scripted * N :=
  match cues s with
  | [] => (inr false, mkScripted [] {[ "partial" := "" ]} (closing_text s), 0%N)
  | (Commit segment, took) :: rest =>
      (inr true, mkScripted rest {[ "text" := segment ]} (closing_text s), took)
  | (Guess partial, took) :: rest =>
      (inr false, mkScripted rest {[ "partial" := partial ]} (closing_text s), took)
  | (Crash, took) :: rest =>
      (inl VoskError, mkScripted rest (answer s) (closing_text s), took)
  end.

Definition scripted (script : list (Cue * N)) (closing : string) : Recognizer Scripted := {|
  KaldiRecognizer := mkScripted script ∅ closing;
  AcceptWaveform := scripted_accept;
  Result := fun s => (answer s, s);
  PartialResult := fun s => (answer s, s);
  FinalResult := fun s => ({[ "text" := closing_text s ]}, s)
|}.

(** A world in which nothing has happened yet. *)
Definition fresh_world (ok : bool) (blocks : list (Z * Chunk)) : World :=
  mkWorld 0 MicFree ok blocks [].

Definition block (b : Byte.byte) : Chunk := [b].

(** ** Spaces in a transcript *)

Definition starts_with_space (s : string) : bool :=
  match s with
  | String c _ => Ascii.eqb c " "%char
  | EmptyString => false
  end.

Fixpoint ends_with_space (s : string) : bool :=
  match s with
  | EmptyString => false
  | String c EmptyString => Ascii.eqb c " "%char
  | String _ rest => ends_with_space rest
  end.

Fixpoint has_double_space (s : string) : bool :=
  match s with
  | EmptyString => false
  | String c rest => (Ascii.eqb c " "%char && starts_with_space rest) || has_double_space rest
  end.

(** No space at either end and no two spaces in a row. *)
Definition tidy (s : string) : bool :=
  negb (starts_with_space s) && negb (ends_with_space s) && negb (has_double_space s).

(** ** The shape of a run *)

(** What a session keeps of an event. *)
Definition kept (ev : RecognitionEvent) : list string :=
  match ev with
  | Committed segment => if truthy segment then [segment] else []
  | _ => []
  end.

(** The calls that follow [AcceptWaveform] within one iteration. *)
Definition is_aftermath (e : Event) : bool :=
  match e with
  | EvResult | EvPartialResult | EvStatus _ => true
  | _ => false
  end.

(** The calls a loop makes. *)
Definition is_loop_event (e : Event) : bool :=
  match e with
  | EvClock | EvGet | EvGot _ | EvAccept _ _ => true
  | _ => is_aftermath e
  end.

(** What the closing text adds to the parts. *)
Definition closing_parts (final : string) : list string :=
  if truthy final then [final] else [].

(** The calls a session makes before its loop. *)
Definition session_prologue (t : Z) : list (Z * Event) :=
  [(t, EvPlaceholder); (t, EvMicOpen); (t, EvClock)].

(** The calls a session makes after its loop. *)
Definition is_epilogue (e : Event) : bool :=
  match e with
  | EvMicClose | EvFinalResult | EvStatusClear => true
  | _ => false
  end.

Section RunShapes.

Context {R : Type} `{Recognizer R}.

(** The shape of a run of [record_loop]: the queue and the locals it starts
    from, how it ends, and the calls it makes. *)
Inductive loop_run (end_time : Z)
  : list (Z * Chunk) → R → list string → Res (R * list string)
    → list (Z * Event) → Prop :=
| run_deadline q rec parts s :
    end_time ≤ s →
    loop_run end_time q rec parts (Ok (rec, parts)) [(s, EvClock)]
| run_starved rec parts s :
    s < end_time →
    loop_run end_time [] rec parts Hang [(s, EvClock); (s, EvGet)]
| run_failed q arrival data rec parts s e reply rec' aftermath :
    s < end_time →
    spec_feed rec data = (Raise e, rec') →
    reply = inl e ∨ reply = inr true →
    Forall (fun te => is_aftermath (snd te) = true) aftermath →
    loop_run end_time ((arrival, data) :: q) rec parts (Raise e)
      ((s, EvClock) :: (s, EvGet) :: (Z.max s arrival, EvGot data)
       :: (Z.max s arrival, EvAccept data reply) :: aftermath)
| run_fed q arrival data rec parts s ev flag rec' aftermath res rest :
    s < end_time →
    spec_feed rec data = (Ok ev, rec') →
    Forall (fun te => is_aftermath (snd te) = true) aftermath →
    loop_run end_time q rec' (parts ++ kept ev) res rest →
    loop_run end_time ((arrival, data) :: q) rec parts res
      ((s, EvClock) :: (s, EvGet) :: (Z.max s arrival, EvGot data)
       :: (Z.max s arrival, EvAccept data (inr flag)) :: aftermath ++ rest).

(** The shape of a whole session, by the way its loop ended. *)
Definition session_outcome (w : World) (loop_result : Res (R * list string))
    (loop_trace : list (Z * Event)) (r : Res string * World) : Prop :=
  match loop_result with
  | Ok (rec', parts) =>
      fst r = Ok (String.concat " " (parts ++ closing_parts (spec_finalize rec')))
      ∧ mic (snd r) = MicFree
      ∧ ∃ t, trace (snd r)
             = trace w ++ session_prologue (now w) ++ loop_trace
               ++ [(t, EvMicClose); (t, EvFinalResult); (t, EvStatusClear)]
  | Raise e =>
      fst r = Raise e
      ∧ mic (snd r) = MicFree
      ∧ ∃ t, trace (snd r)
             = trace w ++ session_prologue (now w) ++ loop_trace ++ [(t, EvMicClose)]
  | Hang =>
      fst r = Hang
      ∧ mic (snd r) = MicHeld
      ∧ trace (snd r) = trace w ++ session_prologue (now w) ++ loop_trace
  end.

End RunShapes.

(** ** Scenarios *)

(** Scenario C of the specification. *)
Definition scenario_C : list EmotionScore :=
  [mkScore "joy" 0.2; mkScore "sadness" 0.7; mkScore "anger" 0.1].

(** Scenario B of the specification: two chunks commit "hello" and "world",
    the closing text is empty; a third block only arrives after the deadline
    check that ends the loop. *)
Definition scenario_B_recognizer : Recognizer Scripted :=
  scripted [(Commit "hello", 4000%N); (Commit "world", 1000%N)] "".

Definition scenario_B_world : World :=
  fresh_world true [(250, block Byte.x01); (500, block Byte.x02);
                    (5250, block Byte.x03)].

Definition scenario_B_run : Res string * World :=
  @record_and_transcribe Scripted scenario_B_recognizer 5 scenario_B_world.

(** A session that hears only hypotheses: the transcript is the closing text. *)
Definition quiet_recognizer : Recognizer Scripted :=
  scripted [(Guess "hel", 10%N); (Guess "", 10%N); (Guess "hello wor", 4900%N)]
    "hello world".

Definition quiet_world : World :=
  fresh_world true [(250, block Byte.x01); (500, block Byte.x02);
                    (750, block Byte.x03); (1000, block Byte.x04)].

Definition quiet_run : Res string * World :=
  @record_and_transcribe Scripted quiet_recognizer 5 quiet_world.

Definition quiet_events : list RecognitionEvent :=
  [Partial "hel"; Empty; Partial "hello wor"].

(** The second chunk makes the decoder fail after the first committed
    "hello". *)
Definition crash_recognizer : Recognizer Scripted :=
  scripted [(Commit "hello", 10%N); (Crash, 10%N)] "world".

Definition crash_world : World :=
  fresh_world true [(250, block Byte.x01); (500, block Byte.x02);
                    (750, block Byte.x03)].

Definition crash_run : Res string * World :=
  @record_and_transcribe Scripted crash_recognizer 5 crash_world.

(** The second block only arrives after the deadline: the loop was already
    blocked in [q.get()], takes it and feeds it. *)
Definition late_world : World :=
  fresh_world true [(250, block Byte.x01); (5100, block Byte.x02)].

Definition late_run : Res string * World :=
  @record_and_transcribe Scripted scenario_B_recognizer 5 late_world.

(** The device cannot be opened. *)
Definition closed_world : World :=
  fresh_world false [(250, block Byte.x01)].

(** The decoder commits a text with a space in front. *)
Definition untidy_recognizer : Recognizer Scripted :=
  scripted [(Commit " hello", 10%N); (Commit "to  you ", 4900%N)] "".

Definition untidy_run : Res string * World :=
  @record_and_transcribe Scripted untidy_recognizer 5 scenario_B_world.

(** ** The image loader *)

(** What [open(file_path, "rb").read()] gives: the bytes, or an exception with
    its message. *)
Inductive ReadOutcome : Type :=
| ReadOk (data : list Byte.byte)
| ReadFailed (message : string).

(** The files the loader can see. *)
Record Files : Type := mkFiles {
  path_exists : string → bool;
  read_file : string → ReadOutcome
}.

Section ImageLoader.

(** [base64.b64encode(data).decode()], the library's. *)
Variable b64encode : list Byte.byte → string.

(** [get_local_img(file_path)]: the data URI of the file, or [None]; with what
    it prints.  Every exception inside the [try] is caught. *)
Definition get_local_img (fs : Files) (file_path : string)
  : option string * list string :=
  if path_exists fs file_path then
    match read_file fs file_path with
    | ReadOk data => (Some ("data:image/png;base64," +:+ b64encode data), [])
    | ReadFailed message => (None, ["Error: " +:+ message])
    end
  else (None, []).

End ImageLoader.

(** * Properties *)

(** ** The presentation mapping *)

Lemma character_for_lookup (mood : string) :
  character_for mood = Ok (dict_get EMOTION_TO_CHARACTER mood neutral_record).
Proof. reflexivity. Qed.

Lemma lookup_outside_labels (mood : string) :
  mood ∉ EMOTION_LABELS → EMOTION_TO_CHARACTER !! mood = None.
Proof.
  intros Hout. unfold EMOTION_LABELS in Hout.
  repeat (apply not_elem_of_cons in Hout as [? Hout]).
  unfold EMOTION_TO_CHARACTER.
  repeat (rewrite lookup_insert_ne by congruence).
  apply lookup_empty.
Qed.

Lemma lookup_inside_labels (mood : string) :
  mood ∈ EMOTION_LABELS → is_Some (EMOTION_TO_CHARACTER !! mood).
Proof.
  intros Hin. unfold EMOTION_LABELS in Hin.
  repeat (apply elem_of_cons in Hin as [-> | Hin]; [by eexists |]).
  by apply elem_of_nil in Hin.
Qed.

(** C7. The mapping from an emotion label to its presentation record never
    raises: each of the seven labels gets the record stored under it
    (the table's own entry, listed here label by label), and every other string
    gets the neutral record. *)
Theorem character_for_total :
  (∀ mood, mood ∈ EMOTION_LABELS →
     ∃ record, EMOTION_TO_CHARACTER !! mood = Some record
               ∧ character_for mood = Ok record)
  ∧ map character_for EMOTION_LABELS
    = map Ok [joy_record; sadness_record; anger_record; fear_record;
              surprise_record; disgust_record; neutral_record]
  ∧ (∀ mood, mood ∉ EMOTION_LABELS → character_for mood = Ok neutral_record).
Proof.
  split; [| split].
  - intros mood Hin. destruct (lookup_inside_labels mood Hin) as [record Hrec].
    exists record. split; [exact Hrec |].
    rewrite character_for_lookup. unfold dict_get. by rewrite Hrec.
  - vm_compute. reflexivity.
  - intros mood Hout. rewrite character_for_lookup. unfold dict_get.
    by rewrite (lookup_outside_labels mood Hout).
Qed.

(** ** The selection of the best emotion *)

Lemma score_gt_true (a b : Q) : score_gt a b = true → (b < a)%Q.
Proof.
  unfold score_gt. intros Hgt. apply Qnot_le_lt. intros Hle.
  apply Qle_bool_iff in Hle. rewrite Hle in Hgt. discriminate.
Qed.

Lemma score_gt_false (a b : Q) : score_gt a b = false → (a <= b)%Q.
Proof.
  unfold score_gt. intros Hgt. apply Qle_bool_iff.
  destruct (Qle_bool a b); [reflexivity | discriminate].
Qed.

(** The invariant of the scan [max] makes: everything before the running
    maximum is strictly below it, everything seen after it is not above it. *)
Lemma max_scan {A : Type} (key : A → Q) (others : list A) :
  ∀ (pre : list A) (best : A) (seen : list A),
    Forall (fun x => key x < key best)%Q pre →
    Forall (fun x => key x <= key best)%Q seen →
    ∃ pre' post',
      pre ++ best :: seen ++ others
      = pre' ++ fold_left (max_step key) others best :: post'
      ∧ Forall (fun x => key x < key (fold_left (max_step key) others best))%Q pre'
      ∧ Forall (fun x => key x <= key (fold_left (max_step key) others best))%Q post'.
Proof.
  induction others as [| item others IH]; intros pre best seen Hpre Hseen.
  - exists pre, seen. rewrite app_nil_r. auto.
  - simpl. unfold max_step at 2 4 6.
    destruct (score_gt (key item) (key best)) eqn:Hcmp.
    + apply score_gt_true in Hcmp.
      destruct (IH (pre ++ best :: seen) item []) as (pre' & post' & Heq & Hlt & Hle).
      * apply Forall_app. split; [| constructor].
        -- eapply Forall_impl; [exact Hpre |]. intros x Hx. simpl in Hx.
           eapply Qlt_trans; eassumption.
        -- exact Hcmp.
        -- eapply Forall_impl; [exact Hseen |]. intros x Hx. simpl in Hx.
           eapply Qle_lt_trans; eassumption.
      * constructor.
      * exists pre', post'. split; [| auto].
        rewrite <- Heq. simpl. rewrite <- !app_assoc. reflexivity.
    + apply score_gt_false in Hcmp.
      destruct (IH pre best (seen ++ [item])) as (pre' & post' & Heq & Hlt & Hle).
      * exact Hpre.
      * apply Forall_app. split; [exact Hseen |]. constructor; [exact Hcmp | constructor].
      * exists pre', post'. split; [| auto].
        rewrite <- Heq. rewrite <- !app_assoc. reflexivity.
Qed.

(** C4. On a non-empty list of scores, [max(scores, key=score)] returns an entry
    of the list whose score no entry exceeds, and every entry before it in the
    list has a strictly smaller score: among entries that share the maximum the
    first is the one selected. *)
Theorem py_max_first_maximum (scores : list EmotionScore) :
  scores ≠ [] →
  ∃ pre best post,
    py_max score scores = Ok best
    ∧ scores = pre ++ best :: post
    ∧ Forall (fun entry => score entry < score best)%Q pre
    ∧ Forall (fun entry => score entry <= score best)%Q post.
Proof.
  destruct scores as [| first others]; [congruence |]. intros _.
  destruct (max_scan score others [] first []) as (pre & post & Heq & Hlt & Hle);
    [constructor | constructor |].
  exists pre, (fold_left (max_step score) others first), post.
  split; [reflexivity |]. split; [exact Heq |]. auto.
Qed.

(** Scenario C selects "sadness". *)
Lemma py_max_first_maximum_witness :
  scenario_C ≠ []
  ∧ (∃ pre best post,
       py_max score scenario_C = Ok best
       ∧ scenario_C = pre ++ best :: post
       ∧ Forall (fun entry => score entry < score best)%Q pre
       ∧ Forall (fun entry => score entry <= score best)%Q post)
  ∧ py_max score scenario_C = Ok (mkScore "sadness" 0.7).
Proof.
  split; [discriminate |].
  split; [apply (py_max_first_maximum scenario_C); discriminate | reflexivity].
Defined.

(** A tie goes to the earlier entry. *)
Example py_max_tie :
  py_max score [mkScore "joy" 0.4; mkScore "fear" 0.4; mkScore "anger" 0.2]
  = Ok (mkScore "joy" 0.4).
Proof. reflexivity. Qed.

(** ** Cutting a list at one of its items *)

Section Cuts.

Context {A : Type} (P : A → Prop).

(** An item that is not [P] cannot lie in a prefix whose items all are. *)
Lemma cut_after_prefix (l r pre : list A) (x : A) (post : list A) :
  Forall P l → ¬ P x → l ++ r = pre ++ x :: post →
  ∃ pre', pre = l ++ pre' ∧ r = pre' ++ x :: post.
Proof.
  intros Hl Hx. revert pre. induction Hl as [| a l Ha _ IH]; intros pre Heq.
  - by exists pre.
  - destruct pre as [| b pre]; simpl in Heq.
    + injection Heq as -> _. contradiction.
    + injection Heq as -> Heq. destruct (IH pre Heq) as (pre' & -> & ->).
      by exists pre'.
Qed.

(** Nor in a suffix whose items all are. *)
Lemma cut_before_suffix (l r pre : list A) (x : A) (post : list A) :
  Forall P r → ¬ P x → l ++ r = pre ++ x :: post →
  ∃ post', post = post' ++ r ∧ l = pre ++ x :: post'.
Proof.
  intros Hr Hx. revert pre. induction l as [| a l IH]; intros pre Heq.
  - simpl in Heq. subst r. apply Forall_app in Hr as [_ Hr].
    apply Forall_cons in Hr as [Hr _]. contradiction.
  - destruct pre as [| b pre]; simpl in Heq.
    + injection Heq as -> Heq. by exists l.
    + injection Heq as -> Heq. destruct (IH pre Heq) as (post' & -> & ->).
      by exists post'.
Qed.

End Cuts.

(** ** Runs of the recording loop *)

Ltac run_monad :=
  unfold mbind, M_bind, bind, mret, M_ret, ret, emit, lift, raise, hang,
    time_time, wait_until in *; cbn [fst snd] in *.

Section SessionFacts.

Context {R : Type} `{Recognizer R}.

(** One iteration's feed, against the adapter of the specification. *)
Lemma feed_chunk_run (data : Chunk) (rec : R) (parts : list string) (w : World) :
  ∃ reply aftermath,
    Forall (fun te => is_aftermath (snd te) = true) aftermath
    ∧ trace (snd (feed_chunk data rec parts w))
      = trace w ++ (now w, EvAccept data reply) :: aftermath
    ∧ mic (snd (feed_chunk data rec parts w)) = mic w
    ∧ match spec_feed rec data with
      | (Ok ev, rec') =>
          fst (feed_chunk data rec parts w) = Ok (rec', parts ++ kept ev)
          ∧ ∃ flag, reply = inr flag
      | (Raise e, _) =>
          fst (feed_chunk data rec parts w) = Raise e
          ∧ (reply = inl e ∨ reply = inr true)
      | (Hang, _) => False
      end.
Proof.
  unfold feed_chunk, spec_feed, accept_waveform. run_monad.
  destruct (AcceptWaveform rec data) as [[reply rec1] took].
  exists reply. destruct reply as [e | [|]]; simpl.
  - exists []. repeat split; auto.
  - destruct (Result rec1) as [res rec2]. simpl.
    exists [(now w + Z.of_N took, EvResult)].
    split; [repeat constructor |].
    destruct (dict_item res "text") as [segment | e |] eqn:Hitem; simpl.
    + destruct (truthy segment) eqn:Hseg; simpl;
        rewrite ?app_nil_r, <- ?app_assoc; repeat split; eauto.
    + rewrite <- app_assoc. repeat split; auto.
    + unfold dict_item in Hitem. by case_match.
  - destruct (PartialResult rec1) as [res rec2]. simpl.
    destruct (truthy (dict_get res "partial" "")) eqn:Hp; simpl.
    + exists [(now w + Z.of_N took, EvPartialResult);
              (now w + Z.of_N took, EvStatus (dict_get res "partial" ""))].
      split; [repeat constructor |].
      rewrite <- !app_assoc, app_nil_r. simpl. repeat split; eauto.
    + exists [(now w + Z.of_N took, EvPartialResult)].
      split; [repeat constructor |].
      rewrite app_nil_r, <- app_assoc. repeat split; eauto.
Qed.

(** Every run of the loop has that shape; it starts by reading the clock, and
    leaves the microphone as it found it. *)
Lemma record_loop_run (end_time : Z) (q : list (Z * Chunk)) :
  ∀ (rec : R) (parts : list string) (w : World),
  ∃ rest,
    trace (snd (record_loop end_time q rec parts w))
    = trace w ++ (now w, EvClock) :: rest
    ∧ mic (snd (record_loop end_time q rec parts w)) = mic w
    ∧ loop_run end_time q rec parts (fst (record_loop end_time q rec parts w))
        ((now w, EvClock) :: rest).
Proof.
  induction q as [| [arrival data] q IH]; intros rec parts w.
  - simpl. run_monad. destruct (now w <? end_time) eqn:Hcmp; simpl.
    + apply Z.ltb_lt in Hcmp. exists [(now w, EvGet)].
      rewrite <- app_assoc. repeat split; [by constructor].
    + apply Z.ltb_ge in Hcmp. exists []. repeat split; [by constructor].
  - simpl. run_monad. destruct (now w <? end_time) eqn:Hcmp; simpl.
    2:{ apply Z.ltb_ge in Hcmp. exists []. repeat split; [by constructor]. }
    apply Z.ltb_lt in Hcmp.
    set (w3 := record_event (EvGot data)
                 (set_now (Z.max (now w) arrival)
                    (record_event EvGet (record_event EvClock w)))).
    destruct (feed_chunk_run data rec parts w3)
      as (reply & aftermath & Hafter & Htrace & Hmic & Hres).
    destruct (feed_chunk data rec parts w3) as [r w4]. simpl in *.
    destruct (spec_feed rec data) as [[ev | e |] rec'] eqn:Hfeed; [| | done].
    + destruct Hres as [-> [flag ->]].
      destruct (IH rec' (parts ++ kept ev) w4) as (rest & Htr & Hm & Hrun).
      destruct (record_loop end_time q rec' (parts ++ kept ev) w4) as [r w5].
      simpl in *.
      exists ((now w, EvGet) :: (Z.max (now w) arrival, EvGot data)
              :: (Z.max (now w) arrival, EvAccept data (inr flag))
              :: aftermath ++ (now w4, EvClock) :: rest).
      split; [| split].
      * rewrite Htr, Htrace. rewrite <- !app_assoc. reflexivity.
      * rewrite Hm, Hmic. reflexivity.
      * eapply run_fed; eauto.
    + destruct Hres as [-> Hreply]. simpl.
      exists ((now w, EvGet) :: (Z.max (now w) arrival, EvGot data)
              :: (Z.max (now w) arrival, EvAccept data reply) :: aftermath).
      split; [| split].
      * rewrite Htrace. rewrite <- !app_assoc. reflexivity.
      * exact Hmic.
      * eapply run_failed; eauto.
Qed.

Lemma fed_chunks_aftermath (tr : list (Z * Event)) :
  Forall (fun te => is_aftermath (snd te) = true) tr → fed_chunks tr = [].
Proof.
  induction 1 as [| [t e] tr He _ IH]; [reflexivity |].
  unfold fed_chunks in *. simpl. destruct e; try discriminate; exact IH.
Qed.

Lemma fed_chunks_iteration (s d : Z) (data : Chunk) (reply : Exn + bool)
    (aftermath rest : list (Z * Event)) :
  Forall (fun te => is_aftermath (snd te) = true) aftermath →
  fed_chunks ((s, EvClock) :: (s, EvGet) :: (d, EvGot data)
              :: (d, EvAccept data reply) :: aftermath ++ rest)
  = data :: fed_chunks rest.
Proof.
  intros Hafter. unfold fed_chunks. simpl. f_equal.
  rewrite omap_app. fold (fed_chunks aftermath).
  rewrite (fed_chunks_aftermath _ Hafter). reflexivity.
Qed.

(** The chunks a run feeds are the first ones of its queue, in order, and
    what it keeps of them is what the adapter's events commit. *)
Lemma loop_run_feeds (end_time : Z) q rec parts res tr :
  loop_run end_time q rec parts res tr →
  (∃ n, fed_chunks tr = take n (map snd q))
  ∧ match res with
    | Ok (rec', parts') =>
        ∃ evs, spec_feed_all rec (fed_chunks tr) = (Ok evs, rec')
               ∧ parts' = parts ++ flat_map kept evs
    | Raise e => ∃ rec', spec_feed_all rec (fed_chunks tr) = (Raise e, rec')
    | Hang => ∃ evs rec', spec_feed_all rec (fed_chunks tr) = (Ok evs, rec')
    end.
Proof.
  induction 1 as [q rec parts s Hs | rec parts s Hs
                 | q arrival data rec parts s e reply rec' aftermath Hs Hfeed Hreply Hafter
                 | q arrival data rec parts s ev flag rec' aftermath res rest
                     Hs Hfeed Hafter Hrun [[n Hn] IH]].
  - split; [by exists 0%nat |]. exists []. by rewrite app_nil_r.
  - split; [by exists 0%nat |]. by exists [], rec.
  - rewrite <- (app_nil_r aftermath), fed_chunks_iteration by done.
    split; [by exists 1%nat |]. exists rec'. simpl. by rewrite Hfeed.
  - rewrite fed_chunks_iteration by done.
    split; [exists (S n); simpl; by rewrite Hn |].
    simpl. rewrite Hfeed.
    destruct res as [[rec'' parts'] | e |].
    + destruct IH as (evs & -> & ->). exists (ev :: evs).
      split; [reflexivity |]. simpl. by rewrite app_assoc.
    + destruct IH as (rec'' & ->). by exists rec''.
    + destruct IH as (evs & rec'' & ->). by exists (ev :: evs), rec''.
Qed.

Lemma aftermath_loop_events (tr : list (Z * Event)) :
  Forall (fun te => is_aftermath (snd te) = true) tr →
  Forall (fun te => is_loop_event (snd te) = true) tr.
Proof.
  intros Hafter. eapply Forall_impl; [exact Hafter |].
  intros [t e] He. simpl in *. by destruct e.
Qed.

Lemma loop_run_loop_events (end_time : Z) q rec parts res tr :
  loop_run end_time q rec parts res tr →
  Forall (fun te => is_loop_event (snd te) = true) tr.
Proof.
  induction 1; repeat (apply Forall_cons; split; [reflexivity |]);
    rewrite ?Forall_app; auto using aftermath_loop_events.
Qed.

Ltac peel pre :=
  destruct pre as [| ? pre]; simpl in *; simplify_eq.

(** Cut [loop ++ epilogue = pre ++ x :: post] inside the loop's part. *)
Tactic Notation "cut_suffix" constr(Hep) "as" ident(Hcut) :=
  match goal with
  | Heq : _ :: _ ++ _ = _ ++ _ :: _ |- _ =>
      rewrite app_comm_cons in Heq;
      apply (cut_before_suffix _ _ _ _ _ _ Hep) in Heq as (? & -> & Hcut);
      [| simpl; discriminate]
  end.

(** [q.get()] is only called right after a clock reading below the deadline. *)
Lemma loop_run_get_checked (end_time : Z) q rec parts res tr :
  loop_run end_time q rec parts res tr →
  ∀ pre t post, tr = pre ++ (t, EvGet) :: post →
    ∃ pre' s, pre = pre' ++ [(s, EvClock)] ∧ s < end_time.
Proof.
  induction 1 as [q rec parts s Hs | rec parts s Hs
                 | q arrival data rec parts s e reply rec' aftermath Hs Hfeed Hreply Hafter
                 | q arrival data rec parts s ev flag rec' aftermath res rest
                     Hs Hfeed Hafter Hrun IH];
    intros pre t post Heq.
  - peel pre. peel pre.
  - peel pre. peel pre; [eexists [], _; split; [reflexivity | eassumption] |]. peel pre.
  - peel pre. peel pre; [eexists [], _; split; [reflexivity | eassumption] |]. peel pre. peel pre.
    apply Forall_app in Hafter as [_ Hafter].
    apply Forall_cons in Hafter as [Hafter _]. discriminate.
  - peel pre. peel pre; [eexists [], _; split; [reflexivity | eassumption] |]. peel pre. peel pre.
    match goal with Hcut : _ ++ _ = _ ++ _ :: _ |- _ =>
      apply (cut_after_prefix _ _ _ _ _ _ Hafter) in Hcut as (pre' & -> & ->);
        [| simpl; discriminate] end.
    destruct (IH _ _ _ eq_refl) as (pre0 & s0 & -> & Hs0).
    exists ((s, EvClock) :: (s, EvGet) :: (Z.max s arrival, EvGot data)
            :: (Z.max s arrival, EvAccept data (inr flag)) :: aftermath ++ pre0), s0.
    split; [| exact Hs0]. simpl. by rewrite <- app_assoc.
Qed.

(** A clock reading at or past the deadline is the last call of the loop. *)
Lemma loop_run_deadline_last (end_time : Z) q rec parts res tr :
  loop_run end_time q rec parts res tr →
  ∀ pre s post, tr = pre ++ (s, EvClock) :: post → end_time ≤ s → post = [].
Proof.
  induction 1 as [q rec parts s Hs | rec parts s Hs
                 | q arrival data rec parts s e reply rec' aftermath Hs Hfeed Hreply Hafter
                 | q arrival data rec parts s ev flag rec' aftermath res rest
                     Hs Hfeed Hafter Hrun IH];
    intros pre s0 post Heq Hlate.
  - peel pre; [done |]. peel pre.
  - peel pre; [lia |]. peel pre. peel pre.
  - peel pre; [lia |]. peel pre. peel pre. peel pre.
    apply Forall_app in Hafter as [_ Hafter].
    apply Forall_cons in Hafter as [Hafter _]. discriminate.
  - peel pre; [lia |]. peel pre. peel pre. peel pre.
    match goal with Hcut : _ ++ _ = _ ++ _ :: _ |- _ =>
      apply (cut_after_prefix _ _ _ _ _ _ Hafter) in Hcut as (pre' & -> & ->);
        [| simpl; discriminate] end.
    by eapply IH.
Qed.

(** A chunk taken off the queue is handed to the decoder at once. *)
Lemma loop_run_got_fed (end_time : Z) q rec parts res tr :
  loop_run end_time q rec parts res tr →
  ∀ pre t data post, tr = pre ++ (t, EvGot data) :: post →
    ∃ reply post', post = (t, EvAccept data reply) :: post'.
Proof.
  induction 1 as [q rec parts s Hs | rec parts s Hs
                 | q arrival data rec parts s e reply rec' aftermath Hs Hfeed Hreply Hafter
                 | q arrival data rec parts s ev flag rec' aftermath res rest
                     Hs Hfeed Hafter Hrun IH];
    intros pre t data0 post Heq.
  - peel pre. peel pre.
  - peel pre. peel pre. peel pre.
  - peel pre. peel pre. peel pre; [by eexists _, _ |]. peel pre.
    apply Forall_app in Hafter as [_ Hafter].
    apply Forall_cons in Hafter as [Hafter _]. discriminate.
  - peel pre. peel pre. peel pre; [by eexists _, _ |]. peel pre.
    match goal with Hcut : _ ++ _ = _ ++ _ :: _ |- _ =>
      apply (cut_after_prefix _ _ _ _ _ _ Hafter) in Hcut as (pre' & -> & ->);
        [| simpl; discriminate] end.
    by eapply IH.
Qed.

(** A chunk that came off the queue at or after the deadline had only just
    arrived: the loop was blocked in [q.get()] waiting for it. *)
Lemma loop_run_late_arrival (end_time : Z) q rec parts res tr :
  loop_run end_time q rec parts res tr →
  ∀ pre t data post, tr = pre ++ (t, EvGot data) :: post →
    end_time ≤ t → (t, data) ∈ q.
Proof.
  induction 1 as [q rec parts s Hs | rec parts s Hs
                 | q arrival data rec parts s e reply rec' aftermath Hs Hfeed Hreply Hafter
                 | q arrival data rec parts s ev flag rec' aftermath res rest
                     Hs Hfeed Hafter Hrun IH];
    intros pre t data0 post Heq Hlate.
  - peel pre. peel pre.
  - peel pre. peel pre. peel pre.
  - peel pre. peel pre. peel pre.
    + replace (Z.max s arrival) with arrival by lia. apply elem_of_cons. by left.
    + peel pre. apply Forall_app in Hafter as [_ Hafter].
      apply Forall_cons in Hafter as [Hafter _]. discriminate.
  - peel pre. peel pre. peel pre.
    + replace (Z.max s arrival) with arrival by lia. apply elem_of_cons. by left.
    + peel pre.
      match goal with Hcut : _ ++ _ = _ ++ _ :: _ |- _ =>
        apply (cut_after_prefix _ _ _ _ _ _ Hafter) in Hcut as (pre' & -> & ->);
          [| simpl; discriminate] end.
      apply elem_of_cons. right. by eapply IH.
Qed.

(** A decoder error ends the loop with that error. *)
Lemma loop_run_error_escapes (end_time : Z) q rec parts res tr :
  loop_run end_time q rec parts res tr →
  ∀ t data e, (t, EvAccept data (inl e)) ∈ tr → res = Raise e.
Proof.
  induction 1 as [q rec parts s Hs | rec parts s Hs
                 | q arrival data rec parts s e reply rec' aftermath Hs Hfeed Hreply Hafter
                 | q arrival data rec parts s ev flag rec' aftermath res rest
                     Hs Hfeed Hafter Hrun IH];
    intros t data0 e0 Hin.
  - apply list_elem_of_singleton in Hin. discriminate.
  - repeat (apply elem_of_cons in Hin as [Hin | Hin]; [discriminate |]).
    by apply elem_of_nil in Hin.
  - do 3 (apply elem_of_cons in Hin as [Hin | Hin]; [discriminate |]).
    apply elem_of_cons in Hin as [Hin | Hin].
    + destruct Hreply as [Hreply | Hreply]; congruence.
    + rewrite Forall_forall in Hafter. apply Hafter in Hin. discriminate.
  - do 4 (apply elem_of_cons in Hin as [Hin | Hin]; [discriminate |]).
    apply elem_of_app in Hin as [Hin | Hin].
    + rewrite Forall_forall in Hafter. apply Hafter in Hin. discriminate.
    + by eapply IH.
Qed.

Lemma record_and_transcribe_closed (duration_sec : Z) (w : World) :
  device_ok w = false →
  record_and_transcribe duration_sec w
  = (Raise PortAudioError,
     record_event EvOpenFailed (record_event EvPlaceholder w)).
Proof.
  intros Hdev. unfold record_and_transcribe, with_RawInputStream. run_monad.
  simpl. rewrite Hdev. reflexivity.
Qed.

Lemma record_and_transcribe_run (duration_sec : Z) (w : World) :
  device_ok w = true →
  ∃ loop_result rest,
    loop_run (now w + duration_sec * TICKS_PER_SECOND) (capture w)
      KaldiRecognizer [] loop_result ((now w, EvClock) :: rest)
    ∧ session_outcome w loop_result ((now w, EvClock) :: rest)
        (record_and_transcribe duration_sec w).
Proof.
  intros Hdev. unfold record_and_transcribe, with_RawInputStream. run_monad.
  simpl. rewrite Hdev.
  set (w2 := record_event EvClock
               (record_event EvMicOpen (set_mic MicHeld (record_event EvPlaceholder w)))).
  set (end_time := now w + duration_sec * TICKS_PER_SECOND).
  destruct (record_loop_run end_time (capture w) KaldiRecognizer [] w2)
    as (rest & Htrace & Hmic & Hrun).
  exists (fst (record_loop end_time (capture w) KaldiRecognizer [] w2)), rest.
  split; [exact Hrun |].
  destruct (record_loop end_time (capture w) KaldiRecognizer [] w2)
    as [[[rec' parts] | e |] w3]; simpl in *.
  - unfold spec_finalize. destruct (FinalResult rec') as [res rec'']. simpl.
    split; [| split; [reflexivity |]].
    + unfold closing_parts.
      destruct (truthy (dict_get res "text" "")); rewrite ?app_nil_r; reflexivity.
    + exists (now w3). rewrite Htrace. unfold session_prologue.
      rewrite <- !app_assoc. reflexivity.
  - split; [reflexivity | split; [reflexivity |]].
    exists (now w3). rewrite Htrace. unfold session_prologue.
    rewrite <- !app_assoc. reflexivity.
  - split; [reflexivity | split; [exact Hmic |]].
    rewrite Htrace. unfold session_prologue. rewrite <- !app_assoc. reflexivity.
Qed.

Lemma segments_kept (evs : list RecognitionEvent) (closing : string) :
  segments evs closing = flat_map kept evs ++ closing_parts closing.
Proof.
  unfold segments. rewrite List.filter_app. f_equal.
  induction evs as [| ev evs IH]; [reflexivity |].
  destruct ev as [hyp | segment |]; simpl; try exact IH.
  destruct (truthy segment); simpl; [f_equal |]; exact IH.
Qed.

Lemma fed_chunks_app (l r : list (Z * Event)) :
  fed_chunks (l ++ r) = fed_chunks l ++ fed_chunks r.
Proof. apply omap_app. Qed.

(** A session that returns: what it fed, and what it made of it. *)
Lemma record_and_transcribe_ok (duration_sec : Z) (w w' : World) (transcript : string) :
  record_and_transcribe duration_sec w = (Ok transcript, w') →
  ∃ new evs rec',
    trace w' = trace w ++ new
    ∧ (∃ n, fed_chunks new = take n (map snd (capture w)))
    ∧ spec_feed_all KaldiRecognizer (fed_chunks new) = (Ok evs, rec')
    ∧ transcript = String.concat " " (segments evs (spec_finalize rec')).
Proof.
  intros Hrun. destruct (device_ok w) eqn:Hdev.
  2:{ rewrite record_and_transcribe_closed in Hrun by done. discriminate. }
  destruct (record_and_transcribe_run duration_sec w Hdev)
    as (loop_result & rest & Hloop & Hout).
  rewrite Hrun in Hout. apply loop_run_feeds in Hloop as [Hprefix Hevents].
  destruct loop_result as [[rec' parts] | e |]; simpl in Hout.
  - destruct Hout as (Htext & _ & t & Htrace).
    destruct Hevents as (evs & Hevs & ->).
    eexists _, evs, rec'. split; [exact Htrace |].
    replace (fed_chunks _) with (fed_chunks ((now w, EvClock) :: rest)).
    + split; [exact Hprefix |]. split; [exact Hevs |].
      rewrite segments_kept. simpl in Htext. congruence.
    + unfold fed_chunks. simpl. rewrite omap_app. simpl. by rewrite app_nil_r.
  - destruct Hout as [? _]. discriminate.
  - destruct Hout as [? _]. discriminate.
Qed.

Lemma concat_closing_parts (closing : string) :
  String.concat " " (closing_parts closing) = closing.
Proof. by destruct closing. Qed.

Lemma flat_map_kept_quiet (evs : list RecognitionEvent) :
  Forall (fun ev => is_committed ev = false) evs → flat_map kept evs = [].
Proof.
  induction 1 as [| ev evs Hev _ IH]; [reflexivity |].
  destruct ev; [exact IH | discriminate | exact IH].
Qed.

(** C1. The transcript a session returns is the join, with single spaces, of
    its segments: the texts the fed chunks committed, in feed order, followed by
    the closing text of [FinalResult], an empty text being no segment (so an
    empty closing text leaves no trailing separator). *)
Theorem transcript_joins_segments (duration_sec : Z) (w w' : World)
    (transcript : string) :
  record_and_transcribe duration_sec w = (Ok transcript, w') →
  ∃ new evs rec',
    trace w' = trace w ++ new
    ∧ spec_feed_all KaldiRecognizer (fed_chunks new) = (Ok evs, rec')
    ∧ transcript = String.concat " " (segments evs (spec_finalize rec')).
Proof.
  intros Hrun.
  destruct (record_and_transcribe_ok _ _ _ _ Hrun)
    as (new & evs & rec' & Htrace & _ & Hevs & Htext).
  by exists new, evs, rec'.
Qed.

(** C2. When the chunks a session fed gave only partial hypotheses or nothing,
    the transcript it returns is exactly the text of [FinalResult]. *)
Theorem quiet_session_returns_closing_text (duration_sec : Z) (w w' : World)
    (transcript : string) (new : list (Z * Event))
    (evs : list RecognitionEvent) (rec' : R) :
  record_and_transcribe duration_sec w = (Ok transcript, w') →
  trace w' = trace w ++ new →
  spec_feed_all KaldiRecognizer (fed_chunks new) = (Ok evs, rec') →
  Forall (fun ev => is_committed ev = false) evs →
  transcript = spec_finalize rec'.
Proof.
  intros Hrun Htrace Hevs Hquiet.
  destruct (record_and_transcribe_ok _ _ _ _ Hrun)
    as (new0 & evs0 & rec0 & Htrace0 & _ & Hevs0 & ->).
  rewrite Htrace in Htrace0. apply app_inv_head in Htrace0 as <-.
  rewrite Hevs in Hevs0. injection Hevs0 as <- <-.
  rewrite segments_kept, (flat_map_kept_quiet _ Hquiet). simpl.
  apply concat_closing_parts.
Qed.

(** The trace of a session that opened its stream. *)
Lemma session_trace (duration_sec : Z) (w : World) :
  device_ok w = true →
  ∃ loop_result rest epilogue,
    loop_run (now w + duration_sec * TICKS_PER_SECOND) (capture w)
      KaldiRecognizer [] loop_result ((now w, EvClock) :: rest)
    ∧ session_outcome w loop_result ((now w, EvClock) :: rest)
        (record_and_transcribe duration_sec w)
    ∧ Forall (fun te => is_epilogue (snd te) = true) epilogue
    ∧ trace (snd (record_and_transcribe duration_sec w))
      = trace w ++ session_prologue (now w) ++ ((now w, EvClock) :: rest) ++ epilogue.
Proof.
  intros Hdev.
  destruct (record_and_transcribe_run duration_sec w Hdev)
    as (loop_result & rest & Hloop & Hout).
  exists loop_result, rest.
  destruct loop_result as [[rec' parts] | e |]; simpl in Hout.
  - destruct Hout as (Hres & Hmic & t & Htrace).
    exists [(t, EvMicClose); (t, EvFinalResult); (t, EvStatusClear)].
    split; [exact Hloop |]. split; [simpl; eauto |].
    split; [repeat constructor | exact Htrace].
  - destruct Hout as (Hres & Hmic & t & Htrace).
    exists [(t, EvMicClose)].
    split; [exact Hloop |]. split; [simpl; eauto |].
    split; [repeat constructor | exact Htrace].
  - destruct Hout as (Hres & Hmic & Htrace).
    exists [].
    split; [exact Hloop |]. split; [simpl; eauto |].
    split; [constructor |]. rewrite Htrace. simpl. by rewrite app_nil_r.
Qed.

Lemma epilogue_not_fed (tr : list (Z * Event)) :
  Forall (fun te => is_epilogue (snd te) = true) tr →
  Forall (fun te => is_dequeue_or_feed (snd te) = false) tr.
Proof.
  intros Hep. eapply Forall_impl; [exact Hep |].
  intros [t e] He. simpl in *. by destruct e.
Qed.

Lemma fed_chunks_epilogue (tr : list (Z * Event)) :
  Forall (fun te => is_epilogue (snd te) = true) tr → fed_chunks tr = [].
Proof.
  induction 1 as [| [t e] tr He _ IH]; [reflexivity |].
  unfold fed_chunks in *. simpl. destruct e; try discriminate; exact IH.
Qed.

(** C8 (amended). The deadline is checked at the head of the loop and nowhere
    else.  With [end_time] the reading taken at the start plus the duration:
    [q.get()] is only called right after a clock reading below [end_time]; once
    a reading at or past [end_time] has been taken, no chunk is dequeued or fed
    any more; a chunk that was dequeued is fed at once, whenever the blocking
    [q.get()] returned, and one dequeued at or after [end_time] is a block that
    arrived at that very tick (the loop was waiting for it; it had not been
    sitting on the queue); and the chunks fed are the first ones captured, in
    order, the others being left on the queue. *)
Theorem deadline_checked_before_each_dequeue (duration_sec : Z) (w : World) :
  ∃ new,
    trace (snd (record_and_transcribe duration_sec w)) = trace w ++ new
    ∧ (∀ pre t post, new = pre ++ (t, EvGet) :: post →
         ∃ pre' s, pre = pre' ++ [(s, EvClock)]
                   ∧ s < now w + duration_sec * TICKS_PER_SECOND)
    ∧ (∀ pre s post, new = pre ++ (s, EvClock) :: post →
         now w + duration_sec * TICKS_PER_SECOND ≤ s →
         Forall (fun te => is_dequeue_or_feed (snd te) = false) post)
    ∧ (∀ pre t data post, new = pre ++ (t, EvGot data) :: post →
         (∃ reply post', post = (t, EvAccept data reply) :: post')
         ∧ (now w + duration_sec * TICKS_PER_SECOND ≤ t → (t, data) ∈ capture w))
    ∧ (∃ n, fed_chunks new = take n (map snd (capture w))).
Proof.
  destruct (device_ok w) eqn:Hdev.
  2:{ rewrite record_and_transcribe_closed by done.
      exists [(now w, EvPlaceholder); (now w, EvOpenFailed)]. simpl.
      split; [by rewrite <- app_assoc |].
      split; [intros pre t post Heq; peel pre; peel pre; peel pre |].
      split; [intros pre t post Heq; peel pre; peel pre; peel pre |].
      split; [intros pre t data post Heq; peel pre; peel pre; peel pre |].
      by exists 0%nat. }
  destruct (session_trace duration_sec w Hdev)
    as (loop_result & rest & epilogue & Hloop & _ & Hep & Htrace).
  set (end_time := now w + duration_sec * TICKS_PER_SECOND) in *.
  eexists. split; [exact Htrace |]. unfold session_prologue.
  split; [| split; [| split]].
  - intros pre t post Heq. peel pre. peel pre. peel pre.
    cut_suffix Hep as Hcut.
    destruct (loop_run_get_checked _ _ _ _ _ _ Hloop _ _ _ Hcut)
      as (pre' & s & -> & Hs).
    by eexists (_ :: _ :: _ :: pre'), s.
  - intros pre s post Heq Hlate. peel pre. peel pre. peel pre.
    + rewrite (loop_run_deadline_last _ _ _ _ _ _ Hloop [] _ _ eq_refl Hlate).
      constructor; [reflexivity |]. by apply epilogue_not_fed.
    + cut_suffix Hep as Hcut.
      rewrite (loop_run_deadline_last _ _ _ _ _ _ Hloop _ _ _ Hcut Hlate).
      by apply epilogue_not_fed.
  - intros pre t data post Heq. peel pre. peel pre. peel pre.
    cut_suffix Hep as Hcut.
    split.
    + destruct (loop_run_got_fed _ _ _ _ _ _ Hloop _ _ _ _ Hcut)
        as (reply & post0 & ->).
      by eexists reply, _.
    + intros Hlate. by eapply loop_run_late_arrival.
  - destruct (loop_run_feeds _ _ _ _ _ _ Hloop) as [[n Hn] _]. exists n.
    rewrite <- Hn. rewrite !fed_chunks_app.
    rewrite (fed_chunks_epilogue _ Hep), app_nil_r. reflexivity.
Qed.

Lemma loop_run_only_loop_events (end_time : Z) q rec parts res tr te :
  loop_run end_time q rec parts res tr → te ∈ tr → is_loop_event (snd te) = true.
Proof.
  intros Hloop Hin. apply loop_run_loop_events in Hloop.
  rewrite Forall_forall in Hloop. by apply Hloop.
Qed.

(** C5 (amended). When [AcceptWaveform] raises during the loop, the error
    escapes [record_and_transcribe]: the stream is closed on the way out and
    that is the last thing the session does, [FinalResult] is never called and
    no transcript is returned (what was committed before is lost with it). *)
Theorem decoder_error_escapes (duration_sec : Z) (w : World)
    (new : list (Z * Event)) (t : Z) (data : Chunk) (e : Exn) :
  trace (snd (record_and_transcribe duration_sec w)) = trace w ++ new →
  (t, EvAccept data (inl e)) ∈ new →
  fst (record_and_transcribe duration_sec w) = Raise e
  ∧ mic (snd (record_and_transcribe duration_sec w)) = MicFree
  ∧ (∀ t', (t', EvFinalResult) ∉ new)
  ∧ (∃ pre t', new = pre ++ [(t', EvMicClose)]).
Proof.
  intros Htrace Hin. destruct (device_ok w) eqn:Hdev.
  2:{ rewrite record_and_transcribe_closed in Htrace by done. simpl in Htrace.
      rewrite <- app_assoc in Htrace. apply app_inv_head in Htrace as <-.
      repeat (apply elem_of_cons in Hin as [Hin | Hin]; [discriminate |]).
      by apply elem_of_nil in Hin. }
  destruct (record_and_transcribe_run duration_sec w Hdev)
    as (loop_result & rest & Hloop & Hout).
  assert (Hescape : (t, EvAccept data (inl e)) ∈ (now w, EvClock) :: rest
                    → loop_result = Raise e)
    by (eapply loop_run_error_escapes; exact Hloop).
  destruct loop_result as [[rec' parts] | e' |]; simpl in Hout.
  - destruct Hout as (_ & _ & t' & Htrace'). rewrite Htrace in Htrace'.
    apply app_inv_head in Htrace' as ->. exfalso.
    do 3 (apply elem_of_cons in Hin as [Hin | Hin]; [discriminate |]).
    rewrite app_comm_cons in Hin. apply elem_of_app in Hin as [Hin | Hin].
    + specialize (Hescape Hin). discriminate.
    + repeat (apply elem_of_cons in Hin as [Hin | Hin]; [discriminate |]).
      by apply elem_of_nil in Hin.
  - destruct Hout as (Hres & Hmic & t' & Htrace'). rewrite Htrace in Htrace'.
    apply app_inv_head in Htrace' as ->.
    do 3 (apply elem_of_cons in Hin as [Hin | Hin]; [discriminate |]).
    rewrite app_comm_cons in Hin. apply elem_of_app in Hin as [Hin | Hin].
    2:{ apply list_elem_of_singleton in Hin. discriminate. }
    specialize (Hescape Hin). injection Hescape as ->.
    split; [exact Hres |]. split; [exact Hmic |]. split.
    + intros t0 Hfinal.
      do 3 (apply elem_of_cons in Hfinal as [Hfinal | Hfinal]; [discriminate |]).
      rewrite app_comm_cons in Hfinal. apply elem_of_app in Hfinal as [Hfinal | Hfinal].
      * apply (loop_run_only_loop_events _ _ _ _ _ _ _ Hloop) in Hfinal. discriminate.
      * apply list_elem_of_singleton in Hfinal. discriminate.
    + eexists (_ :: _ :: _ :: _ :: rest), t'. reflexivity.
  - destruct Hout as (_ & _ & Htrace'). rewrite Htrace in Htrace'.
    apply app_inv_head in Htrace' as ->. exfalso.
    do 3 (apply elem_of_cons in Hin as [Hin | Hin]; [discriminate |]).
    specialize (Hescape Hin). discriminate.
Qed.

(** C9. Whenever a session exits, by returning or by an exception (a failure
    of the decoder or of a result's shape inside the loop included), the
    microphone is free again, and a stream that was opened has been closed. *)
Theorem microphone_released_on_exit (duration_sec : Z) (w : World) :
  mic w = MicFree →
  fst (record_and_transcribe duration_sec w) ≠ Hang →
  mic (snd (record_and_transcribe duration_sec w)) = MicFree
  ∧ ∀ new pre t post,
      trace (snd (record_and_transcribe duration_sec w)) = trace w ++ new →
      new = pre ++ (t, EvMicOpen) :: post →
      ∃ t', (t', EvMicClose) ∈ post.
Proof.
  intros Hfree Hexit. destruct (device_ok w) eqn:Hdev.
  2:{ rewrite record_and_transcribe_closed by done. simpl.
      split; [exact Hfree |]. intros new pre t post Htrace ->.
      rewrite <- app_assoc in Htrace. apply app_inv_head in Htrace.
      peel pre. peel pre. peel pre. }
  destruct (record_and_transcribe_run duration_sec w Hdev)
    as (loop_result & rest & Hloop & Hout).
  assert (Hnone : ∀ t, (t, EvMicOpen) ∈ (now w, EvClock) :: rest → False).
  { intros t Hin.
    apply (loop_run_only_loop_events _ _ _ _ _ _ _ Hloop) in Hin. discriminate. }
  destruct loop_result as [[rec' parts] | e |]; simpl in Hout.
  - destruct Hout as (_ & Hmic & t' & Htrace'). split; [exact Hmic |].
    intros new pre t post Htrace ->. rewrite Htrace in Htrace'.
    apply app_inv_head in Htrace'. peel pre. peel pre.
    + exists t'. do 2 (apply elem_of_cons; right).
      apply elem_of_app. right. apply elem_of_cons. by left.
    + peel pre. exfalso.
      match goal with Heq : _ ++ (_, EvMicOpen) :: _ = ?r |- _ =>
        assert (Hin : (t, EvMicOpen) ∈ r)
          by (rewrite <- Heq; apply elem_of_app; right; apply elem_of_cons; by left)
      end.
      rewrite app_comm_cons in Hin. apply elem_of_app in Hin as [Hin | Hin].
      * by apply Hnone in Hin.
      * repeat (apply elem_of_cons in Hin as [Hin | Hin]; [discriminate |]).
        by apply elem_of_nil in Hin.
  - destruct Hout as (_ & Hmic & t' & Htrace'). split; [exact Hmic |].
    intros new pre t post Htrace ->. rewrite Htrace in Htrace'.
    apply app_inv_head in Htrace'. peel pre. peel pre.
    + exists t'. do 2 (apply elem_of_cons; right).
      apply elem_of_app. right. by apply list_elem_of_singleton.
    + peel pre. exfalso.
      match goal with Heq : _ ++ (_, EvMicOpen) :: _ = ?r |- _ =>
        assert (Hin : (t, EvMicOpen) ∈ r)
          by (rewrite <- Heq; apply elem_of_app; right; apply elem_of_cons; by left)
      end.
      rewrite app_comm_cons in Hin. apply elem_of_app in Hin as [Hin | Hin].
      * by apply Hnone in Hin.
      * repeat (apply elem_of_cons in Hin as [Hin | Hin]; [discriminate |]).
        by apply elem_of_nil in Hin.
  - destruct Hout as (Hres & _). contradiction.
Qed.

End SessionFacts.

(** ** Scenario B and the quiet session, run *)

(** Scenario B returns "hello world": the two committed texts, and nothing for
    the empty closing text. *)
Lemma transcript_joins_segments_witness :
  fst scenario_B_run = Ok "hello world"
  ∧ ∃ new evs rec',
      trace (snd scenario_B_run) = trace scenario_B_world ++ new
      ∧ @spec_feed_all Scripted scenario_B_recognizer
          (@KaldiRecognizer Scripted scenario_B_recognizer) (fed_chunks new)
        = (Ok evs, rec')
      ∧ "hello world"
        = String.concat " "
            (segments evs (@spec_finalize Scripted scenario_B_recognizer rec')).
Proof.
  split; [vm_compute; reflexivity |].
  apply (@transcript_joins_segments Scripted scenario_B_recognizer 5
           scenario_B_world (snd scenario_B_run) "hello world").
  vm_compute. reflexivity.
Defined.

(** Three chunks that commit nothing: the transcript is the closing text. *)
Lemma quiet_session_returns_closing_text_witness :
  fst quiet_run = Ok "hello world"
  ∧ "hello world"
    = @spec_finalize Scripted quiet_recognizer (mkScripted [] {[ "partial" := "hello wor" ]} "hello world").
Proof.
  split; [vm_compute; reflexivity |].
  apply (@quiet_session_returns_closing_text Scripted quiet_recognizer 5
           quiet_world (snd quiet_run) "hello world"
           (trace (snd quiet_run)) quiet_events).
  - vm_compute. reflexivity.
  - reflexivity.
  - vm_compute. reflexivity.
  - repeat constructor.
Defined.

(** ** The handler *)

Section AppFacts.

Context {R : Type} `{Recognizer R}.
Variable emotion_clf : string → list (list EmotionScore).
Variable get_local_img : string → option string.

Local Opaque character_for.

(** What the handler does with a transcript that is not empty: it starts by
    calling the classifier, and only adds to the trace. *)
Lemma on_record_nonempty (platform genre : string) (duration : Z) (w w1 : World)
    (transcript : string) :
  record_and_transcribe duration w = (Ok transcript, w1) →
  truthy transcript = true →
  ∃ rest,
    trace (snd (on_record emotion_clf get_local_img platform genre duration w))
    = trace w1 ++ (now w1, EvClassify transcript) :: rest.
Proof.
  intros Hrun Htruthy. unfold on_record, classify. run_monad.
  rewrite Hrun, Htruthy. simpl.
  destruct (emotion_clf transcript) as [| scores others]; simpl.
  { by exists []. }
  destruct (py_max score scores) as [best | e |]; simpl;
    [| by exists [] | by exists []].
  rewrite character_for_lookup. simpl.
  generalize (dict_get EMOTION_TO_CHARACTER (label best) neutral_record) as char.
  intros char.
  destruct (get_local_img (image char)) as [src |]; simpl;
    [destruct (truthy src); simpl |];
    destruct (String.eqb platform "Spotify"); simpl;
    eexists; rewrite <- !app_assoc; simpl; reflexivity.
Qed.

Lemma truthy_nonempty (s : string) : truthy s = true ↔ s ≠ "".
Proof. destruct s; simpl; split; congruence. Qed.

(** C3. The handler calls the classifier exactly when the session returned a
    transcript that is not empty.  After a session whose transcript is the empty
    string it does nothing more (no classification, no presentation update, no
    recommendation) and ends normally. *)
Theorem classifier_runs_iff_transcript_nonempty (platform genre : string)
    (duration : Z) (w : World) :
  ∃ new,
    trace (snd (on_record emotion_clf get_local_img platform genre duration w))
    = trace (snd (record_and_transcribe duration w)) ++ new
    ∧ ((∃ t transcript, (t, EvClassify transcript) ∈ new)
       ↔ (∃ transcript, fst (record_and_transcribe duration w) = Ok transcript
                        ∧ transcript ≠ ""))
    ∧ (fst (record_and_transcribe duration w) = Ok "" →
       new = []
       ∧ fst (on_record emotion_clf get_local_img platform genre duration w) = Ok tt).
Proof.
  destruct (record_and_transcribe duration w) as [[transcript | e |] w1] eqn:Hrun.
  - destruct (truthy transcript) eqn:Htruthy.
    + destruct (on_record_nonempty platform genre duration w w1 transcript Hrun Htruthy)
        as [rest Hrest].
      exists ((now w1, EvClassify transcript) :: rest). simpl.
      split; [exact Hrest |]. split; [split |].
      * intros _. exists transcript. split; [reflexivity |].
        by apply truthy_nonempty.
      * intros _. exists (now w1), transcript. apply elem_of_cons. by left.
      * intros [= ->]. discriminate.
    + destruct transcript; [| discriminate].
      exists []. unfold on_record. run_monad. rewrite Hrun. simpl.
      split; [by rewrite app_nil_r |]. split; [split |].
      * intros (t & transcript & Hin). by apply elem_of_nil in Hin.
      * intros (transcript & [= <-] & Hne). contradiction.
      * auto.
  - exists []. unfold on_record. run_monad. rewrite Hrun. simpl.
    split; [by rewrite app_nil_r |]. split; [split |].
    + intros (t & transcript & Hin). by apply elem_of_nil in Hin.
    + intros (transcript & Hok & _). discriminate.
    + discriminate.
  - exists []. unfold on_record. run_monad. rewrite Hrun. simpl.
    split; [by rewrite app_nil_r |]. split; [split |].
    + intros (t & transcript & Hin). by apply elem_of_nil in Hin.
    + intros (transcript & Hok & _). discriminate.
    + discriminate.
Qed.

(** C6. When the audio device cannot be opened, [record_and_transcribe] raises
    the device error before any recording: the stream is never entered, the
    clock is not read, no chunk is fed, [FinalResult] is not called and no
    transcript is built; the error escapes the handler, so the classifier and
    every display step after it are skipped.  All the run did was create the
    status placeholder and fail to open the device. *)
Theorem closed_device_stops_everything (platform genre : string) (duration : Z)
    (w : World) :
  device_ok w = false →
  fst (record_and_transcribe duration w) = Raise PortAudioError
  ∧ fst (app emotion_clf get_local_img true platform genre duration w)
    = Raise PortAudioError
  ∧ trace (snd (app emotion_clf get_local_img true platform genre duration w))
    = trace w ++ [(now w, EvPlaceholder); (now w, EvOpenFailed)]
  ∧ mic (snd (app emotion_clf get_local_img true platform genre duration w)) = mic w.
Proof.
  intros Hdev. unfold app, on_record. run_monad.
  rewrite record_and_transcribe_closed by exact Hdev. simpl.
  rewrite <- app_assoc. auto.
Qed.

End AppFacts.

(** ** Spaces in a transcript *)

Lemma starts_with_space_app (a b : string) :
  starts_with_space (a +:+ b)
  = if truthy a then starts_with_space a else starts_with_space b.
Proof. by destruct a. Qed.

Lemma ends_with_space_app (a b : string) :
  ends_with_space (a +:+ b)
  = if truthy b then ends_with_space b else ends_with_space a.
Proof.
  induction a as [| c a IH]; simpl.
  - by destruct b.
  - rewrite IH. destruct a as [| c' a]; simpl.
    + by destruct b.
    + reflexivity.
Qed.

Lemma has_double_space_app (a b : string) :
  has_double_space (a +:+ b)
  = has_double_space a || has_double_space b
    || (ends_with_space a && starts_with_space b).
Proof.
  induction a as [| c a IH]; simpl.
  - by rewrite orb_false_r.
  - rewrite IH, starts_with_space_app. destruct a as [| c' a]; simpl.
    + destruct (Ascii.eqb c " "%char), (starts_with_space b), (has_double_space b);
        reflexivity.
    + destruct (Ascii.eqb c " "%char), (Ascii.eqb c' " "%char), (has_double_space (String c' a)),
        (has_double_space b), (ends_with_space (String c' a)), (starts_with_space b);
        reflexivity.
Qed.

Lemma concat_cons2 (sep x y : string) (rest : list string) :
  String.concat sep (x :: y :: rest) = x +:+ sep +:+ String.concat sep (y :: rest).
Proof. reflexivity. Qed.

Lemma truthy_app (a b : string) : truthy (a +:+ b) = truthy a || truthy b.
Proof. by destruct a. Qed.

(** Joining segments that are not empty gives a text that is not empty, and a
    tidy one when the segments are. *)
Lemma concat_nonempty (part : string) (parts : list string) :
  Forall (fun s => truthy s = true) (part :: parts) →
  truthy (String.concat " " (part :: parts)) = true.
Proof.
  intros Hne. apply Forall_cons in Hne as [Hpart _].
  destruct parts as [| part' parts]; [exact Hpart |].
  rewrite concat_cons2, truthy_app, Hpart. reflexivity.
Qed.

Lemma concat_tidy (parts : list string) :
  Forall (fun s => truthy s = true) parts →
  Forall (fun s => tidy s = true) parts →
  tidy (String.concat " " parts) = true.
Proof.
  induction parts as [| part parts IH]; intros Hne Htidy; [reflexivity |].
  apply Forall_cons in Htidy as [Hpart Htidy].
  destruct parts as [| part' parts]; [exact Hpart |].
  pose proof Hne as Hne0. apply Forall_cons in Hne as [Hpart_ne Hne].
  specialize (IH Hne Htidy). pose proof (concat_nonempty _ _ Hne) as Hrest.
  rewrite concat_cons2. set (rest := String.concat " " (part' :: parts)) in *.
  unfold tidy in *.
  apply andb_prop in Hpart as [Hpart Hp3]. apply andb_prop in Hpart as [Hp1 Hp2].
  apply andb_prop in IH as [IH Hr3]. apply andb_prop in IH as [Hr1 Hr2].
  rewrite negb_true_iff in *.
  rewrite starts_with_space_app, ends_with_space_app, has_double_space_app.
  rewrite truthy_app, Hpart_ne. simpl (truthy " " || _).
  rewrite (ends_with_space_app " " rest), (has_double_space_app " " rest), Hrest.
  rewrite Hp1, Hp2, Hp3, Hr1, Hr2, Hr3. reflexivity.
Qed.

Lemma filter_truthy_nonempty (texts : list string) :
  Forall (fun s => truthy s = true) (List.filter truthy texts).
Proof.
  induction texts as [| s texts IH]; simpl; [constructor |].
  destruct (truthy s) eqn:Hs; [by constructor | exact IH].
Qed.

Lemma filter_truthy_nil (texts : list string) :
  List.filter truthy texts = [] ↔ Forall (fun s => s = "") texts.
Proof.
  induction texts as [| s texts IH]; simpl; [by split |].
  destruct s as [| c s]; simpl.
  - rewrite IH. split; [by constructor | by inversion 1].
  - split; [discriminate | inversion 1; discriminate].
Qed.

Section TranscriptShape.

Context {R : Type} `{Recognizer R}.

(** C10 (amended). The transcript a session returns is the join of segments
    none of which is empty, and it is the empty string exactly when every text
    the decoder committed, the closing one included, was empty.  The join adds
    single spaces between segments and nothing else: when no segment starts or
    ends with a space or holds two spaces in a row, neither does the transcript.
    (The decoder's own texts are joined as they are.) *)
Theorem transcript_segments_nonempty (duration_sec : Z) (w w' : World)
    (transcript : string) :
  record_and_transcribe duration_sec w = (Ok transcript, w') →
  ∃ new evs rec',
    trace w' = trace w ++ new
    ∧ spec_feed_all KaldiRecognizer (fed_chunks new) = (Ok evs, rec')
    ∧ transcript = String.concat " " (segments evs (spec_finalize rec'))
    ∧ Forall (fun s => s ≠ "") (segments evs (spec_finalize rec'))
    ∧ (transcript = ""
       ↔ Forall (fun s => s = "") (omap committed_text evs ++ [spec_finalize rec']))
    ∧ (Forall (fun s => tidy s = true) (segments evs (spec_finalize rec')) →
       tidy transcript = true).
Proof.
  intros Hrun.
  destruct (record_and_transcribe_ok _ _ _ _ Hrun)
    as (new & evs & rec' & Htrace & _ & Hevs & ->).
  exists new, evs, rec'.
  pose proof (filter_truthy_nonempty (omap committed_text evs ++ [spec_finalize rec']))
    as Hne. fold (segments evs (spec_finalize rec')) in Hne.
  split; [exact Htrace |]. split; [exact Hevs |]. split; [reflexivity |].
  split; [| split].
  - eapply Forall_impl; [exact Hne |]. intros s Hs. by apply truthy_nonempty.
  - rewrite <- filter_truthy_nil. fold (segments evs (spec_finalize rec')).
    destruct (segments evs (spec_finalize rec')) as [| part parts] eqn:Hparts.
    + by split.
    + pose proof (concat_nonempty _ _ Hne) as Hjoin. split; [| discriminate].
      intros Hempty. rewrite Hempty in Hjoin. discriminate.
  - intros Htidy. by apply concat_tidy.
Qed.

End TranscriptShape.

(** ** The other scenarios, run *)

(** C5, as stated, fails: the first chunk committed "hello", the decoder then
    failed on the second, and the session returns no transcript at all. *)
Lemma committed_work_lost_counterexample :
  fst (@spec_feed_all Scripted crash_recognizer
         (@KaldiRecognizer Scripted crash_recognizer) [block Byte.x01])
  = Ok [Committed "hello"]
  ∧ fst crash_run = Raise VoskError
  ∧ ¬ ∃ transcript, fst crash_run = Ok transcript.
Proof.
  split; [vm_compute; reflexivity |]. split; [vm_compute; reflexivity |].
  intros [transcript Hok]. vm_compute in Hok. discriminate.
Qed.

(** The same session under the amended statement: the error escapes after the
    stream is closed, and [FinalResult] is never called. *)
Lemma decoder_error_escapes_witness :
  (500, EvAccept (block Byte.x02) (inl VoskError)) ∈ trace (snd crash_run)
  ∧ fst crash_run = Raise VoskError
  ∧ mic (snd crash_run) = MicFree
  ∧ (∀ t', (t', EvFinalResult) ∉ trace (snd crash_run))
  ∧ (∃ pre t', trace (snd crash_run) = pre ++ [(t', EvMicClose)]).
Proof.
  assert (Hin : (500, EvAccept (block Byte.x02) (inl VoskError))
                ∈ trace (snd crash_run))
    by (vm_compute; repeat constructor).
  split; [exact Hin |].
  exact (@decoder_error_escapes Scripted crash_recognizer 5 crash_world
           (trace (snd crash_run)) 500 (block Byte.x02) VoskError eq_refl Hin).
Defined.

(** The exception path of that session leaves the microphone free. *)
Lemma microphone_released_on_exit_witness :
  mic crash_world = MicFree
  ∧ fst crash_run ≠ Hang
  ∧ mic (snd crash_run) = MicFree
  ∧ ∀ new pre t post,
      trace (snd crash_run) = trace crash_world ++ new →
      new = pre ++ (t, EvMicOpen) :: post →
      ∃ t', (t', EvMicClose) ∈ post.
Proof.
  split; [reflexivity |].
  assert (Hexit : fst crash_run ≠ Hang) by (vm_compute; discriminate).
  split; [exact Hexit |].
  exact (@microphone_released_on_exit Scripted crash_recognizer 5 crash_world
           eq_refl Hexit).
Defined.

(** No block ever comes: [q.get()] never returns and the stream stays open. *)
Example starved_session_holds_microphone :
  let run := @record_and_transcribe Scripted crash_recognizer 5 (fresh_world true []) in
  fst run = Hang ∧ mic (snd run) = MicHeld.
Proof. vm_compute. auto. Qed.

(** C8, as stated, fails: a chunk is dequeued and fed 100 ticks after the
    recording time has elapsed. *)
Lemma dequeue_after_deadline_counterexample :
  now late_world + 5 * TICKS_PER_SECOND ≤ 5100
  ∧ (5100, EvGot (block Byte.x02)) ∈ trace (snd late_run)
  ∧ (5100, EvAccept (block Byte.x02) (inr true)) ∈ trace (snd late_run)
  ∧ fst late_run = Ok "hello world".
Proof.
  split; [vm_compute; discriminate |].
  split; [vm_compute; repeat constructor |].
  split; [vm_compute; repeat constructor |].
  vm_compute. reflexivity.
Qed.

(** Scenario D of the specification. *)
Lemma closed_device_stops_everything_witness :
  let run :=
    @app Scripted scenario_B_recognizer (fun _ => [scenario_C]) (fun _ => None)
      true "Spotify" "jazz" 5 closed_world in
  device_ok closed_world = false
  ∧ fst (@record_and_transcribe Scripted scenario_B_recognizer 5 closed_world)
    = Raise PortAudioError
  ∧ fst run = Raise PortAudioError
  ∧ trace (snd run) = trace closed_world ++ [(0, EvPlaceholder); (0, EvOpenFailed)]
  ∧ mic (snd run) = mic closed_world.
Proof.
  split; [reflexivity |].
  exact (@closed_device_stops_everything Scripted scenario_B_recognizer
           (fun _ => [scenario_C]) (fun _ => None) "Spotify" "jazz" 5
           closed_world eq_refl).
Defined.

(** C10, as stated, fails: every segment is non-empty, yet the transcript
    starts and ends with a space and holds two spaces in a row. *)
Lemma untidy_transcript_counterexample :
  fst untidy_run = Ok " hello to  you "
  ∧ starts_with_space " hello to  you " = true
  ∧ ends_with_space " hello to  you " = true
  ∧ has_double_space " hello to  you " = true.
Proof. vm_compute. auto. Qed.

(** Scenario B again: two tidy segments, a tidy transcript. *)
Lemma transcript_segments_nonempty_witness :
  fst scenario_B_run = Ok "hello world"
  ∧ ∃ new evs rec',
      trace (snd scenario_B_run) = trace scenario_B_world ++ new
      ∧ @spec_feed_all Scripted scenario_B_recognizer
          (@KaldiRecognizer Scripted scenario_B_recognizer) (fed_chunks new)
        = (Ok evs, rec')
      ∧ "hello world"
        = String.concat " "
            (segments evs (@spec_finalize Scripted scenario_B_recognizer rec'))
      ∧ Forall (fun s => s ≠ "")
          (segments evs (@spec_finalize Scripted scenario_B_recognizer rec'))
      ∧ ("hello world" = ""
         ↔ Forall (fun s => s = "")
             (omap committed_text evs
              ++ [@spec_finalize Scripted scenario_B_recognizer rec']))
      ∧ (Forall (fun s => tidy s = true)
           (segments evs (@spec_finalize Scripted scenario_B_recognizer rec')) →
         tidy "hello world" = true).
Proof.
  split; [vm_compute; reflexivity |].
  apply (@transcript_segments_nonempty Scripted scenario_B_recognizer 5
           scenario_B_world (snd scenario_B_run) "hello world").
  vm_compute. reflexivity.
Defined.

(** A session that hears nothing returns the empty transcript, and the handler
    stops there. *)
Example silent_session_skips_classifier :
  let silent := scripted [(Guess "", 10%N); (Guess "", 4900%N)] "" in
  let run :=
    @app Scripted silent (fun _ => [scenario_C]) (fun _ => None)
      true "Spotify" "jazz" 5 scenario_B_world in
  fst (@record_and_transcribe Scripted silent 5 scenario_B_world) = Ok ""
  ∧ fst run = Ok tt
  ∧ forallb (fun te => negb (is_downstream (snd te))) (trace (snd run)) = true.
Proof. vm_compute. auto. Qed.

(** Scenarios B and C together: the transcript is classified, the best label is
    "sadness", and its record is shown. *)
Example spoken_session_shows_sadness :
  let run :=
    @app Scripted scenario_B_recognizer (fun _ => [scenario_C]) (fun _ => None)
      true "YouTube" "jazz" 5 scenario_B_world in
  fst run = Ok tt
  ∧ List.filter is_downstream (events (trace (snd run)))
    = [EvClassify "hello world"; EvTheme sadness_record; EvQuote "hello world";
       EvCoreMemory sadness_record 70; EvDivider;
       EvYouTubeLink "jazz sadness music video" sadness_record].
Proof. vm_compute. auto. Qed.

(** * Further properties of the session *)

(** A status line that shows a hypothesis shows a non-empty one. *)
Definition status_shown (te : Z * Event) : bool :=
  match snd te with
  | EvStatus partial => truthy partial
  | _ => true
  end.

Section SessionClock.

Context {R : Type} `{Recognizer R}.

(** [record_and_transcribe] on an open device, by the outcome of its loop. *)
Lemma record_and_transcribe_unfold (duration_sec : Z) (w : World) :
  device_ok w = true →
  record_and_transcribe duration_sec w
  = match record_loop (now w + duration_sec * TICKS_PER_SECOND) (capture w)
            KaldiRecognizer []
            (record_event EvClock
               (record_event EvMicOpen
                  (set_mic MicHeld (record_event EvPlaceholder w)))) with
    | (Ok (rec', parts), w3) =>
        (Ok (String.concat " " (parts ++ closing_parts (spec_finalize rec'))),
         record_event EvStatusClear
           (record_event EvFinalResult
              (record_event EvMicClose (set_mic MicFree w3))))
    | (Raise e, w3) => (Raise e, record_event EvMicClose (set_mic MicFree w3))
    | (Hang, w3) => (Hang, w3)
    end.
Proof.
  intros Hdev. unfold record_and_transcribe, with_RawInputStream. run_monad.
  simpl. rewrite Hdev.
  destruct (record_loop _ _ _ _ _) as [[[rec' parts] | e |] w3]; simpl;
    [| reflexivity | reflexivity].
  unfold spec_finalize, closing_parts.
  destruct (FinalResult rec') as [res rec'']. simpl.
  destruct (truthy (dict_get res "text" "")); rewrite ?app_nil_r; reflexivity.
Qed.

(** Feeding a chunk never takes the clock back, and never blocks. *)
Lemma feed_chunk_clock (data : Chunk) (rec : R) (parts : list string) (w : World) :
  now w ≤ now (snd (feed_chunk data rec parts w))
  ∧ fst (feed_chunk data rec parts w) ≠ Hang.
Proof.
  unfold feed_chunk, accept_waveform. run_monad.
  destruct (AcceptWaveform rec data) as [[reply rec1] took].
  destruct reply as [e | [|]]; simpl.
  - split; [lia | discriminate].
  - destruct (Result rec1) as [res rec2]. simpl.
    unfold dict_item. destruct (_ !! "text") as [segment |]; simpl.
    + destruct (truthy segment); simpl; split; (lia || discriminate).
    + split; [lia | discriminate].
  - destruct (PartialResult rec1) as [res rec2]. simpl.
    destruct (truthy (dict_get res "partial" "")); simpl;
      split; (lia || discriminate).
Qed.

(** Past the deadline the loop exits at its first check. *)
Lemma record_loop_past_deadline (end_time : Z) (q : list (Z * Chunk)) (rec : R)
    (parts : list string) (w : World) :
  end_time ≤ now w →
  record_loop end_time q rec parts w = (Ok (rec, parts), record_event EvClock w).
Proof.
  intros Hlate. apply Z.ltb_ge in Hlate.
  destruct q as [| [arrival data] q]; simpl; run_monad; simpl; by rewrite Hlate.
Qed.

(** A loop that returns does so at or after the deadline. *)
Lemma record_loop_exit_clock (end_time : Z) (q : list (Z * Chunk)) :
  ∀ (rec : R) (parts : list string) (w : World) x,
    fst (record_loop end_time q rec parts w) = Ok x →
    end_time ≤ now (snd (record_loop end_time q rec parts w)).
Proof.
  induction q as [| [arrival data] q IH]; intros rec parts w x.
  - simpl. run_monad. simpl. destruct (now w <? end_time) eqn:Hcmp; simpl.
    + discriminate.
    + intros _. by apply Z.ltb_ge.
  - simpl. run_monad. simpl. destruct (now w <? end_time) eqn:Hcmp; simpl.
    2:{ intros _. by apply Z.ltb_ge. }
    destruct (feed_chunk data rec parts _) as [[[rec' parts'] | e |] w4];
      simpl; [| discriminate | discriminate].
    apply IH.
Qed.

(** A block that arrives at or after the deadline lets the loop exit. *)
Lemma record_loop_reaches_deadline (end_time : Z) (q : list (Z * Chunk)) :
  ∀ (rec : R) (parts : list string) (w : World),
    (∃ arrival data, (arrival, data) ∈ q ∧ end_time ≤ arrival) →
    fst (record_loop end_time q rec parts w) ≠ Hang.
Proof.
  induction q as [| [arrival data] q IH]; intros rec parts w (a & c & Hin & Hlate).
  - by apply elem_of_nil in Hin.
  - simpl. run_monad. simpl. destruct (now w <? end_time) eqn:Hcmp; simpl;
      [| discriminate].
    set (w3 := record_event (EvGot data)
                 (set_now (Z.max (now w) arrival)
                    (record_event EvGet (record_event EvClock w)))).
    destruct (feed_chunk_clock data rec parts w3) as [Hclock Hfed].
    destruct (feed_chunk data rec parts w3) as [[[rec' parts'] | e |] w4];
      simpl in *; [| discriminate | contradiction].
    apply elem_of_cons in Hin as [Hin | Hin].
    + injection Hin as -> ->.
      rewrite record_loop_past_deadline by lia. discriminate.
    + apply IH. by exists a, c.
Qed.

(** X1. A session cannot block for ever when the device delivers a block at
    or after the deadline: it returns or raises. *)
Theorem session_exits_when_a_late_block_comes (duration_sec : Z) (w : World) :
  (∃ arrival data, (arrival, data) ∈ capture w
                   ∧ now w + duration_sec * TICKS_PER_SECOND ≤ arrival) →
  fst (record_and_transcribe duration_sec w) ≠ Hang.
Proof.
  intros Hlate. destruct (device_ok w) eqn:Hdev.
  2:{ rewrite record_and_transcribe_closed by done. discriminate. }
  rewrite record_and_transcribe_unfold by done.
  pose proof (record_loop_reaches_deadline
                (now w + duration_sec * TICKS_PER_SECOND) (capture w)
                KaldiRecognizer []
                (record_event EvClock
                   (record_event EvMicOpen
                      (set_mic MicHeld (record_event EvPlaceholder w)))) Hlate)
    as Hexit.
  destruct (record_loop _ _ _ _ _) as [[[rec' parts] | e |] w3]; simpl in *;
    [discriminate | discriminate | contradiction].
Qed.

(** X2. With a positive duration and a device that never delivers a block, the
    session never exits: it reads the clock, calls [q.get()] and stays there,
    the stream open and the microphone held; [FinalResult] is never reached. *)
Theorem session_without_blocks_never_exits (duration_sec : Z) (w : World) :
  device_ok w = true →
  capture w = [] →
  0 < duration_sec →
  fst (record_and_transcribe duration_sec w) = Hang
  ∧ mic (snd (record_and_transcribe duration_sec w)) = MicHeld
  ∧ trace (snd (record_and_transcribe duration_sec w))
    = trace w ++ [(now w, EvPlaceholder); (now w, EvMicOpen); (now w, EvClock);
                  (now w, EvClock); (now w, EvGet)].
Proof.
  intros Hdev Hcap Hpos. rewrite record_and_transcribe_unfold by done.
  rewrite Hcap. simpl. run_monad. simpl.
  assert (Hcmp : (now w <? now w + duration_sec * TICKS_PER_SECOND) = true)
    by (apply Z.ltb_lt; unfold TICKS_PER_SECOND; lia).
  rewrite Hcmp. simpl. rewrite <- !app_assoc. auto.
Qed.

(** X3. With a positive duration, a session that exits has fed the first
    captured block, however late that block came. *)
Theorem exiting_session_fed_first_block (duration_sec : Z) (w : World) :
  device_ok w = true →
  0 < duration_sec →
  fst (record_and_transcribe duration_sec w) ≠ Hang →
  ∃ arrival data rest new more,
    capture w = (arrival, data) :: rest
    ∧ trace (snd (record_and_transcribe duration_sec w)) = trace w ++ new
    ∧ fed_chunks new = data :: more.
Proof.
  intros Hdev Hpos Hexit.
  destruct (session_trace duration_sec w Hdev)
    as (loop_result & rest & epilogue & Hloop & Hout & Hep & Htrace).
  assert (Hearly : now w < now w + duration_sec * TICKS_PER_SECOND)
    by (unfold TICKS_PER_SECOND; lia).
  inversion Hloop as [q rec parts s Hs | rec parts s Hs
                     | q arrival data rec parts s e reply rec' aftermath Hs Hfeed Hreply Hafter
                     | q arrival data rec parts s ev flag rec' aftermath res rest'
                         Hs Hfeed Hafter Hrun]; subst.
  - lia.
  - simpl in Hout. destruct Hout as [Hhang _]. contradiction.
  - eexists arrival, data, q, _, _. split; [done |]. split; [exact Htrace |].
    unfold session_prologue. rewrite !fed_chunks_app.
    rewrite <- (app_nil_r aftermath), fed_chunks_iteration by done.
    reflexivity.
  - eexists arrival, data, q, _, _. split; [done |]. split; [exact Htrace |].
    unfold session_prologue. rewrite !fed_chunks_app.
    rewrite fed_chunks_iteration by done. reflexivity.
Qed.

(** X4. A session that returns has kept the stream open for at least the
    duration asked for: the stream is closed, [FinalResult] read and the status
    line cleared at one and the same tick, the final one, and that tick is not
    before the start plus the duration. *)
Theorem returning_session_lasted_the_duration (duration_sec : Z) (w : World)
    (transcript : string) :
  fst (record_and_transcribe duration_sec w) = Ok transcript →
  now w + duration_sec * TICKS_PER_SECOND
  ≤ now (snd (record_and_transcribe duration_sec w))
  ∧ ∃ pre,
      trace (snd (record_and_transcribe duration_sec w))
      = pre ++ [(now (snd (record_and_transcribe duration_sec w)), EvMicClose);
                (now (snd (record_and_transcribe duration_sec w)), EvFinalResult);
                (now (snd (record_and_transcribe duration_sec w)), EvStatusClear)].
Proof.
  destruct (device_ok w) eqn:Hdev.
  2:{ rewrite record_and_transcribe_closed by done. discriminate. }
  rewrite record_and_transcribe_unfold by done.
  pose proof (record_loop_exit_clock
                (now w + duration_sec * TICKS_PER_SECOND) (capture w)
                KaldiRecognizer []
                (record_event EvClock
                   (record_event EvMicOpen
                      (set_mic MicHeld (record_event EvPlaceholder w))))) as Hclock.
  destruct (record_loop _ _ _ _ _) as [[[rec' parts] | e |] w3]; simpl in *;
    [| discriminate | discriminate].
  intros _. split; [by eapply Hclock |].
  exists (trace w3). rewrite <- !app_assoc. reflexivity.
Qed.




Lemma feed_chunk_status (data : Chunk) (rec : R) (parts : list string) (w : World) :
  ∃ new,
    trace (snd (feed_chunk data rec parts w)) = trace w ++ new
    ∧ Forall (fun te => status_shown te = true) new.
Proof.
  unfold feed_chunk, accept_waveform. run_monad.
  destruct (AcceptWaveform rec data) as [[reply rec1] took].
  destruct reply as [e | [|]]; simpl.
  - eexists. split; [reflexivity |]. repeat constructor.
  - destruct (Result rec1) as [res rec2]. simpl.
    destruct (dict_item res "text") as [segment | e |]; simpl;
      [destruct (truthy segment); simpl | |];
      (eexists; split; [rewrite <- !app_assoc; reflexivity | repeat constructor]).
  - destruct (PartialResult rec1) as [res rec2]. simpl.
    destruct (truthy (dict_get res "partial" "")) eqn:Hp; simpl;
      (eexists; split; [rewrite <- !app_assoc; reflexivity |]).
    + repeat constructor; try exact Hp.
    + repeat constructor.
Qed.

Lemma record_loop_status (end_time : Z) (q : list (Z * Chunk)) :
  ∀ (rec : R) (parts : list string) (w : World),
  ∃ new,
    trace (snd (record_loop end_time q rec parts w)) = trace w ++ new
    ∧ Forall (fun te => status_shown te = true) new.
Proof.
  induction q as [| [arrival data] q IH]; intros rec parts w.
  - simpl. run_monad. simpl. destruct (now w <? end_time); simpl;
      (eexists; split; [rewrite <- ?app_assoc; reflexivity | repeat constructor]).
  - simpl. run_monad. simpl. destruct (now w <? end_time); simpl.
    2:{ eexists; split; [reflexivity | repeat constructor]. }
    set (w3 := record_event (EvGot data)
                 (set_now (Z.max (now w) arrival)
                    (record_event EvGet (record_event EvClock w)))).
    destruct (feed_chunk_status data rec parts w3) as (fed & Hfed & Hshown).
    destruct (feed_chunk data rec parts w3) as [[[rec' parts'] | e |] w4];
      simpl in *.
    + destruct (IH rec' parts' w4) as (more & Hmore & Hmore_shown).
      exists ([(now w, EvClock); (now w, EvGet); (Z.max (now w) arrival, EvGot data)]
              ++ fed ++ more).
      split; [rewrite Hmore, Hfed; rewrite <- !app_assoc; reflexivity |].
      rewrite !Forall_app. repeat split; auto; repeat constructor.
    + exists ([(now w, EvClock); (now w, EvGet); (Z.max (now w) arrival, EvGot data)]
              ++ fed).
      split; [rewrite Hfed; rewrite <- !app_assoc; reflexivity |].
      rewrite Forall_app. split; auto; repeat constructor.
    + exists ([(now w, EvClock); (now w, EvGet); (Z.max (now w) arrival, EvGot data)]
              ++ fed).
      split; [rewrite Hfed; rewrite <- !app_assoc; reflexivity |].
      rewrite Forall_app. split; auto; repeat constructor.
Qed.

(** X6. The status line only ever shows a non-empty partial hypothesis, and it
    is cleared exactly when the session returns, as the session's last call: a
    session that raises leaves the last hypothesis on the screen. *)
Theorem status_line_shown_and_cleared (duration_sec : Z) (w : World) :
  ∃ new,
    trace (snd (record_and_transcribe duration_sec w)) = trace w ++ new
    ∧ (∀ t partial, (t, EvStatus partial) ∈ new → partial ≠ "")
    ∧ ((∃ t, (t, EvStatusClear) ∈ new)
       ↔ ∃ transcript, fst (record_and_transcribe duration_sec w) = Ok transcript)
    ∧ (∀ transcript, fst (record_and_transcribe duration_sec w) = Ok transcript →
         ∃ pre t, new = pre ++ [(t, EvStatusClear)]).
Proof.
  destruct (device_ok w) eqn:Hdev.
  2:{ rewrite record_and_transcribe_closed by done. simpl.
      exists [(now w, EvPlaceholder); (now w, EvOpenFailed)].
      split; [by rewrite <- app_assoc |]. split; [| split].
      - intros t partial Hin.
        repeat (apply elem_of_cons in Hin as [Hin | Hin]; [discriminate |]).
        by apply elem_of_nil in Hin.
      - split.
        + intros [t Hin].
          repeat (apply elem_of_cons in Hin as [Hin | Hin]; [discriminate |]).
          by apply elem_of_nil in Hin.
        + intros [transcript Hok]. discriminate.
      - discriminate. }
  rewrite record_and_transcribe_unfold by done.
  set (w2 := record_event EvClock
               (record_event EvMicOpen
                  (set_mic MicHeld (record_event EvPlaceholder w)))).
  set (end_time := now w + duration_sec * TICKS_PER_SECOND).
  destruct (record_loop_status end_time (capture w) KaldiRecognizer [] w2)
    as (lnew & Hlnew & Hshown).
  destruct (record_loop_run end_time (capture w) KaldiRecognizer [] w2)
    as (rest & Hrest & _ & Hloop).
  rewrite Hlnew in Hrest. apply app_inv_head in Hrest. subst lnew.
  pose proof (loop_run_loop_events _ _ _ _ _ _ Hloop) as Hkinds.
  rewrite Forall_forall in Hshown, Hkinds.
  assert (Hpartial : ∀ t partial,
             (t, EvStatus partial) ∈ (now w2, EvClock) :: rest → partial ≠ "").
  { intros t partial Hin. apply Hshown in Hin. by apply truthy_nonempty. }
  assert (Hnoclear : ∀ t, (t, EvStatusClear) ∈ (now w2, EvClock) :: rest → False).
  { intros t Hin. apply Hkinds in Hin. discriminate. }
  destruct (record_loop end_time (capture w) KaldiRecognizer [] w2)
    as [[[rec' parts] | e |] w3]; simpl in *.
  - exists (session_prologue (now w) ++ ((now w2, EvClock) :: rest)
            ++ [(now w3, EvMicClose); (now w3, EvFinalResult); (now w3, EvStatusClear)]).
    split; [rewrite Hlnew; unfold session_prologue, w2; simpl;
            rewrite <- !app_assoc; reflexivity |].
    split; [| split].
    + intros t partial Hin. rewrite !elem_of_app in Hin.
      destruct Hin as [Hin | [Hin | Hin]]; [| by eapply Hpartial |];
        repeat (apply elem_of_cons in Hin as [Hin | Hin]; [discriminate |]);
        by apply elem_of_nil in Hin.
    + split; [by eexists |]. intros _. exists (now w3).
      rewrite !elem_of_app. right. right.
      do 2 (apply elem_of_cons; right). apply elem_of_cons. by left.
    + intros transcript _.
      exists (session_prologue (now w) ++ ((now w2, EvClock) :: rest)
              ++ [(now w3, EvMicClose); (now w3, EvFinalResult)]), (now w3).
      rewrite <- !app_assoc. reflexivity.
  - exists (session_prologue (now w) ++ ((now w2, EvClock) :: rest)
            ++ [(now w3, EvMicClose)]).
    split; [rewrite Hlnew; unfold session_prologue, w2; simpl;
            rewrite <- !app_assoc; reflexivity |].
    split; [| split].
    + intros t partial Hin. rewrite !elem_of_app in Hin.
      destruct Hin as [Hin | [Hin | Hin]]; [| by eapply Hpartial |];
        repeat (apply elem_of_cons in Hin as [Hin | Hin]; [discriminate |]);
        by apply elem_of_nil in Hin.
    + split; [| intros [transcript Hok]; discriminate].
      intros [t Hin]. exfalso. rewrite !elem_of_app in Hin.
      destruct Hin as [Hin | [Hin | Hin]]; [| by eapply Hnoclear |];
        repeat (apply elem_of_cons in Hin as [Hin | Hin]; [discriminate |]);
        by apply elem_of_nil in Hin.
    + discriminate.
  - exists (session_prologue (now w) ++ ((now w2, EvClock) :: rest)).
    split; [rewrite Hlnew; unfold session_prologue, w2; simpl;
            rewrite <- !app_assoc; reflexivity |].
    split; [| split].
    + intros t partial Hin. rewrite !elem_of_app in Hin.
      destruct Hin as [Hin | Hin]; [| by eapply Hpartial];
        repeat (apply elem_of_cons in Hin as [Hin | Hin]; [discriminate |]);
        by apply elem_of_nil in Hin.
    + split; [| intros [transcript Hok]; discriminate].
      intros [t Hin]. exfalso. rewrite !elem_of_app in Hin.
      destruct Hin as [Hin | Hin]; [| by eapply Hnoclear];
        repeat (apply elem_of_cons in Hin as [Hin | Hin]; [discriminate |]);
        by apply elem_of_nil in Hin.
    + discriminate.
Qed.

End SessionClock.

(** * Further properties of the handler *)

Section HandlerFacts.

Context {R : Type} `{Recognizer R}.
Variable emotion_clf : string → list (list EmotionScore).
Variable get_local_img : string → option string.

Local Opaque character_for.




(** X8. When the classifier answers with no list at all, the subscription [[0]]
    raises [IndexError]; when its first list is empty, [max] raises
    [ValueError].  Either way the exception leaves the script right after the
    classifier's call: nothing is displayed, not even the footer. *)
Theorem handler_classifier_failures (platform genre : string) (duration : Z)
    (w w1 : World) (transcript : string) :
  record_and_transcribe duration w = (Ok transcript, w1) →
  transcript ≠ "" →
  (emotion_clf transcript = [] →
   app emotion_clf get_local_img true platform genre duration w
   = (Raise IndexError, record_event (EvClassify transcript) w1))
  ∧ (∀ others, emotion_clf transcript = [] :: others →
     app emotion_clf get_local_img true platform genre duration w
     = (Raise ValueError, record_event (EvClassify transcript) w1)).
Proof.
  intros Hrun Hne. apply truthy_nonempty in Hne. split.
  - intros Hclf. unfold app, on_record, classify. run_monad.
    rewrite Hrun, Hne. simpl. rewrite Hclf. reflexivity.
  - intros others Hclf. unfold app, on_record, classify. run_monad.
    rewrite Hrun, Hne. simpl. rewrite Hclf. reflexivity.
Qed.

End HandlerFacts.


(** The classifier answers with an empty list of lists, then with an empty
    first list. *)
Lemma handler_classifier_failures_witness :
  fst scenario_B_run = Ok "hello world"
  ∧ "hello world" ≠ ""
  ∧ fst (@app Scripted scenario_B_recognizer (fun _ => []) (fun _ => None)
           true "Spotify" "jazz" 5 scenario_B_world) = Raise IndexError
  ∧ fst (@app Scripted scenario_B_recognizer (fun _ => [[]]) (fun _ => None)
           true "Spotify" "jazz" 5 scenario_B_world) = Raise ValueError.
Proof.
  split; [vm_compute; reflexivity |]. split; [discriminate |].
  assert (Hrun : @record_and_transcribe Scripted scenario_B_recognizer 5
                   scenario_B_world = (Ok "hello world", snd scenario_B_run))
    by (vm_compute; reflexivity).
  assert (Hne : "hello world" ≠ "") by discriminate.
  split.
  - rewrite (proj1 (@handler_classifier_failures Scripted scenario_B_recognizer
                      (fun _ => []) (fun _ => None) "Spotify" "jazz" 5
                      scenario_B_world (snd scenario_B_run) "hello world" Hrun Hne)
               eq_refl).
    reflexivity.
  - rewrite (proj2 (@handler_classifier_failures Scripted scenario_B_recognizer
                      (fun _ => [[]]) (fun _ => None) "Spotify" "jazz" 5
                      scenario_B_world (snd scenario_B_run) "hello world" Hrun Hne)
               [] eq_refl).
    reflexivity.
Defined.

(** ** The rounded percentage *)



(** ** The image loader *)

Section ImageLoaderFacts.

Variable b64encode : list Byte.byte → string.

(** X10. [get_local_img] gives a data URI exactly when the file exists and can
    be read, and the URI is then the PNG prefix followed by the encoded bytes,
    never the empty string (so the handler's test [if img_src] only tells
    [None] apart).  It prints an error exactly when the file exists and reading
    it failed; a missing file is passed over in silence. *)
Theorem get_local_img_outcomes (fs : Files) (file_path : string) :
  (∀ src, fst (get_local_img b64encode fs file_path) = Some src
          ↔ path_exists fs file_path = true
            ∧ ∃ data, read_file fs file_path = ReadOk data
                      ∧ src = "data:image/png;base64," +:+ b64encode data)
  ∧ (∀ src, fst (get_local_img b64encode fs file_path) = Some src →
            truthy src = true)
  ∧ (snd (get_local_img b64encode fs file_path) ≠ []
     ↔ path_exists fs file_path = true
       ∧ ∃ message, read_file fs file_path = ReadFailed message).
Proof.
  unfold get_local_img.
  destruct (path_exists fs file_path);
    [destruct (read_file fs file_path) as [data | message] |]; simpl.
  - split; [| split].
    + intros src. split.
      * intros [= <-]. split; [reflexivity |]. by exists data.
      * intros (_ & data' & [= <-] & ->). reflexivity.
    + intros src [= <-]. reflexivity.
    + split; [done |]. intros (_ & message & Hread). discriminate.
  - split; [| split].
    + intros src. split; [discriminate |].
      intros (_ & data & Hread & _). discriminate.
    + discriminate.
    + split; [| discriminate]. intros _. split; [reflexivity |]. by exists message.
  - split; [| split].
    + intros src. split; [discriminate |]. intros [Hex _]. discriminate.
    + discriminate.
    + split; [done |]. intros [Hex _]. discriminate.
Qed.

End ImageLoaderFacts.

(** ** The table of characters *)

Lemma lookup_some_label (mood : string) (record : ActionRecord) :
  EMOTION_TO_CHARACTER !! mood = Some record → mood ∈ EMOTION_LABELS.
Proof.
  intros Hsome. destruct (decide (mood ∈ EMOTION_LABELS)) as [Hin | Hout];
    [exact Hin |].
  rewrite (lookup_outside_labels _ Hout) in Hsome. discriminate.
Qed.

(** X11. No two labels of [EMOTION_TO_CHARACTER] share a display name, an emoji
    or a background colour: what the handler shows tells the seven emotions
    apart. *)
Theorem characters_are_distinct (mood1 mood2 : string) (record1 record2 : ActionRecord) :
  EMOTION_TO_CHARACTER !! mood1 = Some record1 →
  EMOTION_TO_CHARACTER !! mood2 = Some record2 →
  name record1 = name record2 ∨ emoji record1 = emoji record2
  ∨ color record1 = color record2 →
  mood1 = mood2.
Proof.
  intros Hone Htwo Hsame.
  pose proof (lookup_some_label _ _ Hone) as Hin1.
  pose proof (lookup_some_label _ _ Htwo) as Hin2.
  unfold EMOTION_LABELS in Hin1, Hin2.
  repeat (apply elem_of_cons in Hin1 as [-> | Hin1]);
    try (by apply elem_of_nil in Hin1);
    repeat (apply elem_of_cons in Hin2 as [-> | Hin2]);
    try (by apply elem_of_nil in Hin2);
    try reflexivity;
    vm_compute in Hone, Htwo; injection Hone as <-; injection Htwo as <-;
    destruct Hsame as [Hsame | [Hsame | Hsame]]; discriminate.
Qed.

Lemma characters_are_distinct_witness :
  EMOTION_TO_CHARACTER !! "neutral" = Some neutral_record
  ∧ (name neutral_record = name neutral_record ∨ emoji neutral_record = emoji neutral_record
     ∨ color neutral_record = color neutral_record)
  ∧ "neutral" = "neutral".
Proof.
  split; [reflexivity |]. split; [by left |].
  exact (characters_are_distinct "neutral" "neutral" neutral_record neutral_record
           eq_refl eq_refl (or_introl eq_refl)).
Defined.

(** ** The further properties on the scenarios *)

Lemma session_exits_when_a_late_block_comes_witness :
  (∃ arrival data, (arrival, data) ∈ capture scenario_B_world
                   ∧ now scenario_B_world + 5 * TICKS_PER_SECOND ≤ arrival)
  ∧ fst scenario_B_run ≠ Hang.
Proof.
  assert (Hlate : ∃ arrival data, (arrival, data) ∈ capture scenario_B_world
                    ∧ now scenario_B_world + 5 * TICKS_PER_SECOND ≤ arrival).
  { exists 5250, (block Byte.x03). split; [| vm_compute; discriminate].
    simpl. do 2 (apply elem_of_cons; right). apply elem_of_cons. by left. }
  split; [exact Hlate |].
  exact (@session_exits_when_a_late_block_comes Scripted scenario_B_recognizer 5
           scenario_B_world Hlate).
Defined.

Lemma session_without_blocks_never_exits_witness :
  let run := @record_and_transcribe Scripted scenario_B_recognizer 5 (fresh_world true []) in
  fst run = Hang
  ∧ mic (snd run) = MicHeld
  ∧ trace (snd run)
    = [(0, EvPlaceholder); (0, EvMicOpen); (0, EvClock); (0, EvClock); (0, EvGet)].
Proof.
  exact (@session_without_blocks_never_exits Scripted scenario_B_recognizer 5
           (fresh_world true []) eq_refl eq_refl eq_refl).
Defined.

Lemma exiting_session_fed_first_block_witness :
  fst late_run ≠ Hang
  ∧ ∃ arrival data rest new more,
      capture late_world = (arrival, data) :: rest
      ∧ trace (snd late_run) = trace late_world ++ new
      ∧ fed_chunks new = data :: more.
Proof.
  assert (Hexit : fst late_run ≠ Hang) by (vm_compute; discriminate).
  split; [exact Hexit |].
  exact (@exiting_session_fed_first_block Scripted scenario_B_recognizer 5
           late_world eq_refl eq_refl Hexit).
Defined.

Lemma returning_session_lasted_the_duration_witness :
  fst scenario_B_run = Ok "hello world"
  ∧ now scenario_B_world + 5 * TICKS_PER_SECOND ≤ now (snd scenario_B_run)
  ∧ ∃ pre,
      trace (snd scenario_B_run)
      = pre ++ [(now (snd scenario_B_run), EvMicClose);
                (now (snd scenario_B_run), EvFinalResult);
                (now (snd scenario_B_run), EvStatusClear)].
Proof.
  assert (Hok : fst scenario_B_run = Ok "hello world") by (vm_compute; reflexivity).
  split; [exact Hok |].
  exact (@returning_session_lasted_the_duration Scripted scenario_B_recognizer 5
           scenario_B_world "hello world" Hok).
Defined.


(** A decoder that accepts every chunk and whose results have no field: the
    subscription [res['text']] raises, and the stream is closed on the way
    out. *)
Definition fieldless_recognizer : Recognizer unit := {|
  KaldiRecognizer := tt;
  AcceptWaveform := fun _ _ => (inr true, tt, 10%N);
  Result := fun _ => (∅, tt);
  PartialResult := fun _ => (∅, tt);
  FinalResult := fun _ => (∅, tt)
|}.

Example fieldless_result_raises_key_error :
  let run := @record_and_transcribe unit fieldless_recognizer 5 scenario_B_world in
  fst run = Raise (KeyError "text") ∧ mic (snd run) = MicFree.
Proof. vm_compute. auto. Qed.

(** The same decoder never accepting: no [partial] field and no final [text]
    field, and the session returns the empty transcript all the same. *)
Definition mute_recognizer : Recognizer unit := {|
  KaldiRecognizer := tt;
  AcceptWaveform := fun _ _ => (inr false, tt, 2500%N);
  Result := fun _ => (∅, tt);
  PartialResult := fun _ => (∅, tt);
  FinalResult := fun _ => (∅, tt)
|}.

Example fieldless_partial_is_tolerated :
  fst (@record_and_transcribe unit mute_recognizer 5 scenario_B_world) = Ok "".
Proof. vm_compute. reflexivity. Qed.
